(** * convert: Go values to Starlark values and back

    A shallow embedding of [convert/conv.go]: the encoder [ToValue], the
    decoder [FromValue] with its container helpers, the named-argument
    decoder [FromKwargs] and the closure that [MakeStarFn] installs in a
    Starlark builtin.

    Go's [interface{}] values are the inductive [native] (a dynamic type
    together with its payload), Starlark values are the inductive [value].
    Integers are [Z] with the wrap-around of Go's conversions written out,
    floating-point numbers are [spec_float], a panic is an outcome of its
    own, distinct from a returned [error]. *)

From Stdlib Require Import ZArith List String Ascii Bool Lia.
From Stdlib Require Import Floats.SpecFloat.
From Stdlib Require Import DecimalString.
Import ListNotations.

Set Warnings "-register-all".

Local Open Scope string_scope.
Local Open Scope list_scope.

(** ** The [reflect] package: kinds *)

Module reflect.

(** [reflect.Kind], in the order of the Go declaration. *)
Inductive Kind : Set :=
| Invalid | Bool
| Int | Int8 | Int16 | Int32 | Int64
| Uint | Uint8 | Uint16 | Uint32 | Uint64 | Uintptr
| Float32 | Float64 | Complex64 | Complex128
| Array | Chan | Func | Interface | Map | Ptr | Slice | String | Struct
| UnsafePointer.

End reflect.

(** ** Machine integers *)

(** The width of Go's [int] and [uint]; the model is of a 64-bit target. *)
Definition intSize : Z := 64.

Inductive intKind : Set := I | I8 | I16 | I32 | I64.
Inductive uintKind : Set := U | U8 | U16 | U32 | U64.

Definition int_bits (k : intKind) : Z :=
  match k with I => intSize | I8 => 8 | I16 => 16 | I32 => 32 | I64 => 64 end%Z.

Definition uint_bits (k : uintKind) : Z :=
  match k with U => intSize | U8 => 8 | U16 => 16 | U32 => 32 | U64 => 64 end%Z.

(** A Go conversion to a signed (unsigned) type of [w] bits keeps the low
    [w] bits and reads them in two's complement (as a natural number). *)
Definition wrap_signed (w x : Z) : Z :=
  ((x + 2 ^ (w - 1)) mod 2 ^ w - 2 ^ (w - 1))%Z.

Definition wrap_unsigned (w x : Z) : Z := (x mod 2 ^ w)%Z.

(** [int(x)] and [uint(x)]. *)
Definition to_int (x : Z) : Z := wrap_signed intSize x.
Definition to_uint (x : Z) : Z := wrap_unsigned intSize x.

(** The values a signed (unsigned) type of [w] bits holds. *)
Definition fits_signed (w x : Z) : Prop := (- 2 ^ (w - 1) <= x < 2 ^ (w - 1))%Z.
Definition fits_unsigned (w x : Z) : Prop := (0 <= x < 2 ^ w)%Z.

Definition fits_signedb (w x : Z) : bool :=
  ((- 2 ^ (w - 1) <=? x) && (x <? 2 ^ (w - 1)))%Z.
Definition fits_unsignedb (w x : Z) : bool :=
  ((0 <=? x) && (x <? 2 ^ w))%Z.

(** ** Go types *)

(** Kinds the encoder has no case for and the model gives no payload. *)
Inductive otherKind : Set :=
| OUintptr | OComplex64 | OComplex128 | OChan | OUnsafePointer.

Inductive gotype : Type :=
| TBool
| TInt (k : intKind)
| TUint (k : uintKind)
| TFloat32
| TFloat64
| TString
| TSlice (elem : gotype)
| TArray (len : nat) (elem : gotype)
| TMap (key elem : gotype)
| TPtr (elem : gotype)
| TFunc (ins outs : list gotype)
| TInterface                      (* interface{} *)
| TError                          (* error *)
| TStruct (name : string)         (* a declared struct type *)
| TOther (k : otherKind)          (* uintptr, complex, chan, unsafe.Pointer *)
| TValue (name : string).         (* a concrete type implementing starlark.Value *)

(** [errType], the type of the [error] interface. *)
Definition errType : gotype := TError.

Definition intKind_eqb (a b : intKind) : bool :=
  match a, b with
  | I, I | I8, I8 | I16, I16 | I32, I32 | I64, I64 => true
  | _, _ => false
  end.

Definition uintKind_eqb (a b : uintKind) : bool :=
  match a, b with
  | U, U | U8, U8 | U16, U16 | U32, U32 | U64, U64 => true
  | _, _ => false
  end.

Definition otherKind_eqb (a b : otherKind) : bool :=
  match a, b with
  | OUintptr, OUintptr | OComplex64, OComplex64 | OComplex128, OComplex128
  | OChan, OChan | OUnsafePointer, OUnsafePointer => true
  | _, _ => false
  end.

Section ListEq.
Context {A : Type} (eqb : A -> A -> bool).

Fixpoint list_eqb (l1 l2 : list A) : bool :=
  match l1, l2 with
  | [], [] => true
  | x :: l1', y :: l2' => eqb x y && list_eqb l1' l2'
  | _, _ => false
  end.
End ListEq.

(** Identity of types, the [==] and [!=] of [reflect.Type]. *)
Fixpoint gotype_eqb (a b : gotype) {struct a} : bool :=
  match a, b with
  | TBool, TBool | TFloat32, TFloat32 | TFloat64, TFloat64
  | TString, TString | TInterface, TInterface | TError, TError => true
  | TInt k1, TInt k2 => intKind_eqb k1 k2
  | TUint k1, TUint k2 => uintKind_eqb k1 k2
  | TSlice e1, TSlice e2 => gotype_eqb e1 e2
  | TArray n1 e1, TArray n2 e2 => Nat.eqb n1 n2 && gotype_eqb e1 e2
  | TMap k1 e1, TMap k2 e2 => gotype_eqb k1 k2 && gotype_eqb e1 e2
  | TPtr e1, TPtr e2 => gotype_eqb e1 e2
  | TFunc i1 o1, TFunc i2 o2 =>
      list_eqb gotype_eqb i1 i2 && list_eqb gotype_eqb o1 o2
  | TStruct n1, TStruct n2 => String.eqb n1 n2
  | TOther k1, TOther k2 => otherKind_eqb k1 k2
  | TValue n1, TValue n2 => String.eqb n1 n2
  | _, _ => false
  end.

Definition decimal (n : nat) : string := NilEmpty.string_of_uint (Nat.to_uint n).

Section Join.
Context {A : Type} (show : A -> string).

Fixpoint join (sep : string) (l : list A) : string :=
  match l with
  | [] => ""
  | [x] => show x
  | x :: l' => show x ++ sep ++ join sep l'
  end.
End Join.

(** [Type.String()], the name [%T] prints. *)
Fixpoint type_string (t : gotype) : string :=
  match t with
  | TBool => "bool"
  | TInt I => "int" | TInt I8 => "int8" | TInt I16 => "int16"
  | TInt I32 => "int32" | TInt I64 => "int64"
  | TUint U => "uint" | TUint U8 => "uint8" | TUint U16 => "uint16"
  | TUint U32 => "uint32" | TUint U64 => "uint64"
  | TFloat32 => "float32"
  | TFloat64 => "float64"
  | TString => "string"
  | TSlice e => "[]" ++ type_string e
  | TArray n e => "[" ++ decimal n ++ "]" ++ type_string e
  | TMap k e => "map[" ++ type_string k ++ "]" ++ type_string e
  | TPtr e => "*" ++ type_string e
  | TFunc ins outs =>
      "func(" ++ join type_string ", " ins ++ ")" ++
      match outs with
      | [] => ""
      | [o] => " " ++ type_string o
      | _ => " (" ++ join type_string ", " outs ++ ")"
      end
  | TInterface => "interface {}"
  | TError => "error"
  | TStruct name => name
  | TOther OUintptr => "uintptr"
  | TOther OComplex64 => "complex64"
  | TOther OComplex128 => "complex128"
  | TOther OChan => "chan"
  | TOther OUnsafePointer => "unsafe.Pointer"
  | TValue name => name
  end.

(** ** Values of the two worlds *)

(** A Go value held in an [interface{}]: its dynamic type and payload.
    Integers carry their numeric value; a [float32] carries the value it
    denotes, which [float64] represents exactly.  A function value is the
    signature and an index into the table of native code ([GoFunc]).
    [GoError msg] is a non-nil [error] as [errors.New(msg)] makes it: a
    pointer to a struct.  [GoValue v] is a [starlark.Value] seen from Go.

    A Starlark value: [starlark.Int] is arbitrary-precision, [SList],
    [STuple], [SDict] and [SSet] keep the order of their entries,
    [SBuiltin name gofn] is the [*starlark.Builtin] that [MakeStarFn]
    returns, [SStruct i] is the [*Struct] of this package with its field
    [i]. *)
Inductive native : Type :=
| GoNil
| GoBool (b : bool)
| GoInt (k : intKind) (x : Z)
| GoUint (k : uintKind) (x : Z)
| GoFloat32 (f : spec_float)
| GoFloat64 (f : spec_float)
| GoString (s : string)
| GoOther (k : otherKind)
| GoSlice (elem : gotype) (l : list native)
| GoArray (elem : gotype) (l : list native)
| GoMap (key elem : gotype) (m : list (native * native))
| GoPtr (elem : gotype) (p : option native)
| GoFunc (ins outs : list gotype) (code : nat)
| GoStruct (name : string) (fields : list native)
| GoError (msg : string)
| GoValue (v : value)
with value : Type :=
| SNone
| SBool (b : bool)
| SInt (x : Z)
| SFloat (f : spec_float)
| SString (s : string)
| SList (l : list value)
| STuple (l : list value)
| SDict (m : list (value * value))
| SSet (l : list value)
| SBuiltin (name : string) (gofn : native)
| SStruct (i : native).

(** A native value is well formed when every integer in it lies in the
    range of its type.  Only the scalar layer is needed below. *)
Definition int_ok (k : intKind) (x : Z) : Prop := fits_signed (int_bits k) x.
Definition uint_ok (k : uintKind) (x : Z) : Prop := fits_unsigned (uint_bits k) x.

(** The concrete Go type behind each variant of [starlark.Value]. *)
Definition value_type (v : value) : gotype :=
  match v with
  | SNone => TValue "starlark.NoneType"
  | SBool _ => TValue "starlark.Bool"
  | SInt _ => TValue "starlark.Int"
  | SFloat _ => TValue "starlark.Float"
  | SString _ => TValue "starlark.String"
  | SList _ => TPtr (TValue "starlark.List")
  | STuple _ => TValue "starlark.Tuple"
  | SDict _ => TPtr (TValue "starlark.Dict")
  | SSet _ => TPtr (TValue "starlark.Set")
  | SBuiltin _ _ => TPtr (TValue "starlark.Builtin")
  | SStruct _ => TPtr (TValue "convert.Struct")
  end.

(** [reflect.TypeOf(v)]; [None] is the nil type of the nil interface. *)
Definition TypeOf (v : native) : option gotype :=
  match v with
  | GoNil => None
  | GoBool _ => Some TBool
  | GoInt k _ => Some (TInt k)
  | GoUint k _ => Some (TUint k)
  | GoFloat32 _ => Some TFloat32
  | GoFloat64 _ => Some TFloat64
  | GoString _ => Some TString
  | GoOther k => Some (TOther k)
  | GoSlice e _ => Some (TSlice e)
  | GoArray e l => Some (TArray (List.length l) e)
  | GoMap k e _ => Some (TMap k e)
  | GoPtr e _ => Some (TPtr e)
  | GoFunc ins outs _ => Some (TFunc ins outs)
  | GoStruct name _ => Some (TStruct name)
  | GoError _ => Some (TPtr (TStruct "errors.errorString"))
  | GoValue v => Some (value_type v)
  end.

Definition otherKind_kind (k : otherKind) : reflect.Kind :=
  match k with
  | OUintptr => reflect.Uintptr
  | OComplex64 => reflect.Complex64
  | OComplex128 => reflect.Complex128
  | OChan => reflect.Chan
  | OUnsafePointer => reflect.UnsafePointer
  end.

Definition intKind_kind (k : intKind) : reflect.Kind :=
  match k with
  | I => reflect.Int | I8 => reflect.Int8 | I16 => reflect.Int16
  | I32 => reflect.Int32 | I64 => reflect.Int64
  end.

Definition uintKind_kind (k : uintKind) : reflect.Kind :=
  match k with
  | U => reflect.Uint | U8 => reflect.Uint8 | U16 => reflect.Uint16
  | U32 => reflect.Uint32 | U64 => reflect.Uint64
  end.

(** [reflect.ValueOf(v).Kind()].  [ValueOf] opens the interface it is
    given, so the kind is that of the dynamic type and never
    [reflect.Interface]; the nil interface gives the zero [reflect.Value],
    of kind [reflect.Invalid]. *)
Definition Kind (v : native) : reflect.Kind :=
  match v with
  | GoNil => reflect.Invalid
  | GoBool _ => reflect.Bool
  | GoInt k _ => intKind_kind k
  | GoUint k _ => uintKind_kind k
  | GoFloat32 _ => reflect.Float32
  | GoFloat64 _ => reflect.Float64
  | GoString _ => reflect.String
  | GoOther k => otherKind_kind k
  | GoSlice _ _ => reflect.Slice
  | GoArray _ _ => reflect.Array
  | GoMap _ _ _ => reflect.Map
  | GoPtr _ _ => reflect.Ptr
  | GoFunc _ _ _ => reflect.Func
  | GoStruct _ _ => reflect.Struct
  | GoError _ => reflect.Ptr
  | GoValue SNone => reflect.Uint8
  | GoValue (SBool _) => reflect.Bool
  | GoValue (SInt _) => reflect.Struct
  | GoValue (SFloat _) => reflect.Float64
  | GoValue (SString _) => reflect.String
  | GoValue (STuple _) => reflect.Slice
  | GoValue _ => reflect.Ptr
  end.

Definition is_interface_type (t : gotype) : bool :=
  match t with TInterface | TError => true | _ => false end.

(** [reflect.ValueOf(v).Elem().Kind()] for [v] of kind [reflect.Ptr]: the
    kind of the variable pointed to, [reflect.Invalid] under a nil
    pointer (whose [Elem] is the zero [reflect.Value]), and
    [reflect.Interface] when that variable is of an interface type. *)
Definition ElemKind (v : native) : reflect.Kind :=
  match v with
  | GoPtr _ None => reflect.Invalid
  | GoPtr e (Some x) => if is_interface_type e then reflect.Interface else Kind x
  | GoError _ => reflect.Struct
  | GoValue (SList _ | SDict _ | SSet _ | SBuiltin _ _ | SStruct _) => reflect.Struct
  | _ => reflect.Invalid
  end.

(** The accessors of [reflect.Value].  [Bool], [Int], [Uint] and [Float]
    panic ([None]) on a value of another kind; [String] does not: on any
    other kind it returns ["<T Value>"] for the value's type [T]. *)
Definition Value_Bool (v : native) : option bool :=
  match v with
  | GoBool b | GoValue (SBool b) => Some b
  | _ => None
  end.

Definition Value_Int (v : native) : option Z :=
  match v with GoInt _ x => Some x | _ => None end.

Definition Value_Uint (v : native) : option Z :=
  match v with
  | GoUint _ x => Some x
  | GoValue SNone => Some 0%Z
  | _ => None
  end.

Definition Value_Float (v : native) : option spec_float :=
  match v with
  | GoFloat32 f | GoFloat64 f | GoValue (SFloat f) => Some f
  | _ => None
  end.

Definition Value_String (v : native) : string :=
  match v with
  | GoString s | GoValue (SString s) => s
  | _ => match TypeOf v with
         | Some t => "<" ++ type_string t ++ " Value>"
         | None => "<invalid Value>"
         end
  end.

(** ** Errors and outcomes *)

(** The errors of this package, one constructor per [fmt.Errorf], with the
    data its message prints, and the errors of wrapped functions. *)
Inductive error : Type :=
| UnsupportedType (t : option gotype)
    (* "type %T is not a supported starlark type" *)
| ArityMismatch (want got : nat)
    (* "expected %d args but got %d" *)
| KwargShapeLen (n : nat)
    (* "kwarg tuple should have 2 vals, has %v" *)
| KwargShapeName (v : native)
    (* "expected name of kwarg to be string, but was %T (%#v)" *)
| NativeError (v : native)
    (* the non-nil value a wrapped function returned in its error slot *)
| Unhashable (v : value).
    (* the error of starlark's hash table on an unhashable key *)

(** What a call of a function returning [(T, error)] does: it returns a
    [T] with a nil error, returns an error, or panics. *)
Inductive res (A : Type) : Type :=
| Ok (a : A)
| Err (e : error)
| Panicked.

Arguments Ok {A} a.
Arguments Err {A} e.
Arguments Panicked {A}.

(** Sequencing: [if err != nil { return nil, err }] after each call, a
    panic ending everything.  A Go function that returns no error is an
    [option], [None] being a panic. *)
Definition bind {A B : Type} (c : res A) (k : A -> res B) : res B :=
  match c with
  | Ok a => k a
  | Err e => Err e
  | Panicked => Panicked
  end.

Definition obind {A B : Type} (c : option A) (k : A -> option B) : option B :=
  match c with
  | Some a => k a
  | None => None
  end.

(** A call that may panic, inside a function that may also fail. *)
Definition must {A : Type} (c : option A) : res A :=
  match c with
  | Some a => Ok a
  | None => Panicked
  end.

Declare Scope res_scope.
Delimit Scope res_scope with res.
Declare Scope panic_scope.
Delimit Scope panic_scope with panic.

Notation "x <- c ;; k" := (bind c (fun x => k))
  (at level 61, c at next level, right associativity) : res_scope.
Notation "x <- c ;; k" := (obind c (fun x => k))
  (at level 61, c at next level, right associativity) : panic_scope.

(** ** The [starlark] package, as far as the bridge uses it *)

Module starlark.

Definition MakeInt (x : Z) : value := SInt x.
Definition MakeInt64 (x : Z) : value := SInt x.
Definition MakeUint (x : Z) : value := SInt x.
Definition MakeUint64 (x : Z) : value := SInt x.

(** [Int.Int64()] and [Int.Uint64()]: the value, when it is
    representable. *)
Definition Int64 (x : Z) : option Z :=
  if fits_signedb 64 x then Some x else None.

Definition Uint64 (x : Z) : option Z :=
  if fits_unsignedb 64 x then Some x else None.

(** Whether [Hash] succeeds.  The [*Struct] of this package is taken to
    be unhashable. *)
Fixpoint Hashable (v : value) : bool :=
  match v with
  | SList _ | SDict _ | SSet _ | SStruct _ => false
  | STuple l => forallb Hashable l
  | _ => true
  end.

(** Numeric equality of an [Int] and a [Float]. *)
Definition int_float_eqb (x : Z) (f : spec_float) : bool :=
  match f with
  | S754_zero _ => Z.eqb x 0
  | S754_finite s m e =>
      let a := if s then Z.opp x else x in
      if (0 <=? e)%Z then Z.eqb a (Zpos m * 2 ^ e)
      else Z.eqb (a * 2 ^ (- e)) (Zpos m)
  | _ => false
  end.

(** [starlark.Equal] on hashable values.  Two builtins are the same
    object when name and code agree. *)
Fixpoint Equal (x y : value) {struct x} : bool :=
  match x, y with
  | SNone, SNone => true
  | SBool a, SBool b => Bool.eqb a b
  | SInt a, SInt b => Z.eqb a b
  | SFloat a, SFloat b => SFeqb a b
  | SInt a, SFloat b => int_float_eqb a b
  | SFloat a, SInt b => int_float_eqb b a
  | SString a, SString b => String.eqb a b
  | STuple a, STuple b => list_eqb Equal a b
  | SBuiltin n1 (GoFunc _ _ c1), SBuiltin n2 (GoFunc _ _ c2) =>
      String.eqb n1 n2 && Nat.eqb c1 c2
  | _, _ => false
  end.

(** [*starlark.Dict]: entries in insertion order, keys unique up to
    [Equal]. *)
Definition Dict : Type := list (value * value).

Definition Keys (d : Dict) : list value := map fst d.

(** [d.Get(k)]: the value and [found]; the value is [None] of Starlark
    when the key is absent. *)
Fixpoint Get (d : Dict) (k : value) : value * bool :=
  match d with
  | [] => (SNone, false)
  | (k', v) :: d' => if Equal k k' then (v, true) else Get d' k
  end.

Fixpoint replace (d : Dict) (k v : value) : Dict :=
  match d with
  | [] => [(k, v)]
  | (k', v') :: d' =>
      if Equal k k' then (k', v) :: d' else (k', v') :: replace d' k v
  end.

(** [d.SetKey(k, v)]: fails, leaving [d] as it was, on an unhashable
    key. *)
Definition SetKey (d : Dict) (k v : value) : option Dict :=
  if Hashable k then Some (replace d k v) else None.

(** [s.Insert(k)] on the members of a [*starlark.Set]. *)
Definition Insert (s : list value) (k : value) : option (list value) :=
  if Hashable k then Some (if existsb (Equal k) s then s else s ++ [k])
  else None.

End starlark.

(** ** Go maps *)

(** A Go map with keys of interface type, entries in the order of their
    first assignment. *)
Definition gomap : Type := list (native * native).

(** Whether a value may be a key: assigning under a key whose dynamic type
    is a slice, a map or a function panics. *)
Fixpoint go_hashable (v : native) : bool :=
  match v with
  | GoSlice _ _ | GoMap _ _ _ | GoFunc _ _ _ => false
  | GoArray _ l => forallb go_hashable l
  | GoStruct _ fields => forallb go_hashable fields
  | GoValue (STuple _) => false
  | _ => true
  end.

(** [==] on interface values: the same dynamic type and equal payloads.
    It is written out for the nil interface and the scalar types; values
    of the other types are compared by address or field by field in Go,
    and are taken to be distinct here. *)
Definition go_eqb (a b : native) : bool :=
  match a, b with
  | GoNil, GoNil => true
  | GoBool x, GoBool y => Bool.eqb x y
  | GoInt k x, GoInt k' y => intKind_eqb k k' && Z.eqb x y
  | GoUint k x, GoUint k' y => uintKind_eqb k k' && Z.eqb x y
  | GoFloat32 x, GoFloat32 y => SFeqb x y
  | GoFloat64 x, GoFloat64 y => SFeqb x y
  | GoString x, GoString y => String.eqb x y
  | _, _ => false
  end.

Fixpoint map_replace (m : gomap) (k v : native) : gomap :=
  match m with
  | [] => [(k, v)]
  | (k', v') :: m' =>
      if go_eqb k k' then (k', v) :: m' else (k', v') :: map_replace m' k v
  end.

(** [m[k] = v]; [None] when the assignment panics. *)
Definition map_assign (m : gomap) (k v : native) : option gomap :=
  if go_hashable k then Some (map_replace m k v) else None.

(** ** Decoding: from Starlark to Go *)

(** The decoders return [interface{}] and no error; [None] is a panic. *)

Section Decoders.
Variable dec : value -> option native.

Local Open Scope panic_scope.

(** The loops of [FromTuple] and [FromList]: every element decoded, in
    order. *)
Fixpoint decode_each (l : list value) : option (list native) :=
  match l with
  | [] => Some []
  | v :: l' =>
      x <- dec v ;;
      xs <- decode_each l' ;;
      Some (x :: xs)
  end.

(** The loop of [FromDict] over [m.Keys()], here over the entries of
    the dictionary [m] the keys come from: the key is decoded, the value
    is fetched with [m.Get(k)] and stored as it is. *)
Fixpoint decode_keys (m : starlark.Dict) (entries : starlark.Dict)
    (ret : gomap) : option gomap :=
  match entries with
  | [] => Some ret
  | (k, _) :: entries' =>
      key <- dec k ;;
      let val := fst (starlark.Get m k) in
      ret' <- map_assign ret key (GoValue val) ;;
      decode_keys m entries' ret'
  end.

(** The loop of [FromSet]: [ret[val] = true] for every member. *)
Fixpoint decode_members (l : list value) (ret : gomap) : option gomap :=
  match l with
  | [] => Some ret
  | v :: l' =>
      val <- dec v ;;
      ret' <- map_assign ret val (GoBool true) ;;
      decode_members l' ret'
  end.

End Decoders.

(** [FromValue], with the bodies of [FromList], [FromTuple], [FromDict]
    and [FromSet] at their calls. *)
Fixpoint FromValue (v : value) : option native :=
  match v with
  | SBool b => Some (GoBool b)
  | SInt x =>
      match starlark.Int64 x with
      | Some i => Some (GoInt I64 i)
      | None =>
          match starlark.Uint64 x with
          | Some i => Some (GoUint U64 i)
          | None => None
          end
      end
  | SFloat f => Some (GoFloat64 f)
  | SString s => Some (GoString s)
  | SList l => option_map (GoSlice TInterface) (decode_each FromValue l)
  | STuple l => option_map (GoSlice TInterface) (decode_each FromValue l)
  | SDict m =>
      option_map (GoMap TInterface TInterface) (decode_keys FromValue m m [])
  | SSet l =>
      option_map (GoMap TInterface TBool) (decode_members FromValue l [])
  | SStruct i => Some i
  | _ => Some (GoValue v)
  end.

Definition FromTuple (v : list value) : option (list native) :=
  decode_each FromValue v.

Definition FromList (l : list value) : option (list native) :=
  decode_each FromValue l.

Definition FromDict (m : starlark.Dict) : option gomap :=
  decode_keys FromValue m m [].

Definition FromSet (s : list value) : option gomap :=
  decode_members FromValue s [].

(** [FromStringDict]: a [starlark.StringDict] is a Go map from [string]
    to [starlark.Value], whose keys are distinct. *)
Fixpoint FromStringDict (m : list (string * value)) : option gomap :=
  match m with
  | [] => Some []
  | (k, v) :: m' =>
      (x <- FromValue v ;;
       ret <- FromStringDict m' ;;
       Some ((GoString k, x) :: ret))%panic
  end.

(** ** Encoding: from Go to Starlark *)

(** Modelled from the spec: [NewStruct], the Record Projector's entry
    point, is not in [conv.go].  The spec has a record be an opaque
    handle carrying the original native value, which the extraction hook
    ([v.i] in [FromValue]) gives back. *)
Definition NewStruct (v : native) : value := SStruct v.

(** The builtin that [MakeStarFn name gofn] returns; it panics when
    [gofn] is not a function.  What the builtin does when called is
    [Invoke], below. *)
Definition MakeStarFn (name : string) (gofn : native) : res value :=
  match TypeOf gofn with
  | Some (TFunc _ _) => Ok (SBuiltin name gofn)
  | _ => Panicked
  end.

Section Encoders.
Variable enc : native -> res value.

Local Open Scope res_scope.

(** The loop of [makeVals]: the first element that fails ends it. *)
Fixpoint encode_each (l : list native) : res (list value) :=
  match l with
  | [] => Ok []
  | x :: l' =>
      val <- enc x ;;
      vals <- encode_each l' ;;
      Ok (val :: vals)
  end.

(** [makeVals]: a panic on anything but a slice or an array. *)
Definition makeVals_with (v : native) : res (list value) :=
  match v with
  | GoSlice _ l | GoArray _ l => encode_each l
  | _ => Panicked
  end.

(** The loop of [MakeDict] over [r.MapKeys()], taken in the order of
    the entries; the error of [dict.SetKey] is dropped, and the
    dictionary is then as it was. *)
Fixpoint encode_entries (m : gomap) (dict : starlark.Dict)
    : res starlark.Dict :=
  match m with
  | [] => Ok dict
  | (k, x) :: m' =>
      key <- enc k ;;
      val <- enc x ;;
      encode_entries m'
        match starlark.SetKey dict key val with
        | Some dict' => dict'
        | None => dict
        end
  end.

Definition MakeDict_with (v : native) : res value :=
  match v with
  | GoMap _ _ m => dict <- encode_entries m [] ;; Ok (SDict dict)
  | _ => Panicked
  end.

Definition MakeList_with (v : native) : res value :=
  vals <- makeVals_with v ;; Ok (SList vals).

End Encoders.

(** [ToValue].  The kind is that of the pointed-to variable when [v] is
    a pointer, while [val] stays the [reflect.Value] of [v] itself. *)
Fixpoint ToValue (v : native) : res value :=
  match v with
  | GoValue val => Ok val
  | _ =>
      let val := v in
      let kind :=
        match Kind val with
        | reflect.Ptr | reflect.Interface => ElemKind val
        | k => k
        end in
      match kind with
      | reflect.Bool =>
          (b <- must (Value_Bool val) ;; Ok (SBool b))%res
      | reflect.Int | reflect.Int8 | reflect.Int16 | reflect.Int32 =>
          (x <- must (Value_Int val) ;; Ok (starlark.MakeInt (to_int x)))%res
      | reflect.Int64 =>
          (x <- must (Value_Int val) ;; Ok (starlark.MakeInt64 x))%res
      | reflect.Uint | reflect.Uint8 | reflect.Uint16 | reflect.Uint32 =>
          (x <- must (Value_Uint val) ;; Ok (starlark.MakeUint (to_uint x)))%res
      | reflect.Uint64 =>
          (x <- must (Value_Uint val) ;; Ok (starlark.MakeUint64 x))%res
      | reflect.Float32 | reflect.Float64 =>
          (f <- must (Value_Float val) ;; Ok (SFloat f))%res
      | reflect.Func => MakeStarFn "fn" v
      | reflect.Map => MakeDict_with ToValue v
      | reflect.String => Ok (SString (Value_String val))
      | reflect.Slice | reflect.Array => MakeList_with ToValue v
      | reflect.Struct => Ok (NewStruct v)
      | _ => Err (UnsupportedType (TypeOf v))
      end
  end.

Definition makeVals (v : native) : res (list value) := makeVals_with ToValue v.


Definition MakeDict (v : native) : res value := MakeDict_with ToValue v.

(** [MakeTuple]: the Go function returns a [starlark.Tuple], which the
    model keeps as the list of its elements. *)
Definition MakeTuple (v : native) : res (list value) := makeVals v.

(** [MakeStringDict], on the entries of a [map[string]interface{}]. *)
Fixpoint MakeStringDict (m : list (string * native))
    : res (list (string * value)) :=
  match m with
  | [] => Ok []
  | (k, v) :: m' =>
      (val <- ToValue v ;;
       dict <- MakeStringDict m' ;;
       Ok ((k, val) :: dict))%res
  end.

(** The loop of [MakeSet] over the keys of a [map[interface{}]bool]:
    unlike [MakeDict], it returns the error of the hash table. *)
Fixpoint MakeSet_loop (keys : list native) (set : list value)
    : res (list value) :=
  match keys with
  | [] => Ok set
  | k :: keys' =>
      (key <- ToValue k ;;
       match starlark.Insert set key with
       | Some set' => MakeSet_loop keys' set'
       | None => Err (Unhashable key)
       end)%res
  end.

Definition MakeSet (s : gomap) : res value :=
  (set <- MakeSet_loop (map fst s) [] ;; Ok (SSet set))%res.

(** ** Named arguments *)

Record Kwarg : Type := { Name : string; Value : native }.

(** The loop of [FromKwargs], [args] being the slice built so far. *)
Fixpoint FromKwargs_loop (kwargs : list (list value)) (args : list Kwarg)
    : res (list Kwarg) :=
  match kwargs with
  | [] => Ok args
  | t :: kwargs' =>
      (tup <- must (FromTuple t) ;;
       if negb (List.length tup =? 2)%nat then
         Err (KwargShapeLen (List.length tup))
       else
         match nth 0 tup GoNil with
         | GoString s =>
             FromKwargs_loop kwargs'
               (args ++ [{| Name := s; Value := nth 1 tup GoNil |}])
         | other => Err (KwargShapeName other)
         end)%res
  end.

Definition FromKwargs (kwargs : list (list value)) : res (list Kwarg) :=
  FromKwargs_loop kwargs [].

(** ** The function bridge *)

(** What a call of the builtin gives: the pair [(starlark.Value, error)]
    it returns, or a panic. *)
Inductive outcome : Type :=
| Return (v : value) (err : option error)
| Panic.

(** A call of native code: which function, on which arguments. *)
Definition call : Type := (nat * list native)%type.

Section Bridge.

(** [reflect.Value.Convert]: the converted value, [None] when the
    conversion panics. *)
Variable Convert : native -> gotype -> option native.

(** The native code: what the function of a given index returns on given
    arguments. *)
Variable Code : nat -> list native -> list native.

(** The loop that builds [rvs]: an argument whose dynamic type is not
    the declared one is converted.  [val.Type()] panics on the zero
    [reflect.Value] of a nil interface, [t.In(i)] past the last
    parameter. *)
Fixpoint coerce (t_in : list gotype) (vals : list native)
    : option (list native) :=
  match vals with
  | [] => Some []
  | v :: vals' =>
      match TypeOf v, t_in with
      | Some ty, argT :: t_in' =>
          (val <- (if negb (gotype_eqb ty argT) then Convert v argT
                   else Some v) ;;
           rvs <- coerce t_in' vals' ;;
           Some (val :: rvs))%panic
      | _, _ => None
      end
  end.

(** The part of the closure after [v.Call(rvs)].  [out] holds the
    returned values with their declared types. *)
Definition pack (out : list (gotype * native)) : outcome :=
  if (List.length out =? 0)%nat then Return SNone None
  else
    let last := List.last out (TInterface, GoNil) in
    let '(err, out) :=
      if gotype_eqb (fst last) errType then
        (match snd last with
         | GoNil => None
         | v => Some (NativeError v)
         end, removelast out)
      else (None, out) in
    match out with
    | [o] =>
        match ToValue (snd o) with
        | Ok v => Return v err
        | Err err2 => Return SNone (Some err2)
        | Panicked => Panic
        end
    | _ =>
        let ifcs := map snd out in
        let finish (tup : list value) (err2 : option error) :=
          match err with
          | Some _ => Return SNone err2
          | None => Return (STuple tup) err
          end in
        match MakeTuple (GoSlice TInterface ifcs) with
        | Ok tup => finish tup None
        | Err err2 => finish [] (Some err2)
        | Panicked => Panic
        end
    end.

(** The closure that [MakeStarFn name gofn] hands to
    [starlark.NewBuiltin], for [gofn] of type [func(t_in) t_out] and code
    [code]: the calls of native code it makes and what it returns.  The
    thread and the builtin itself, its first two parameters, are not
    used. *)
Definition Invoke (t_in t_out : list gotype) (code : nat)
    (args : list value) (kwargs : list (list value))
    : list call * outcome :=
  if negb (List.length args =? List.length t_in)%nat then
    ([], Return SNone
           (Some (ArityMismatch (List.length t_in) (List.length args))))
  else
    match FromTuple args with
    | None => ([], Panic)
    | Some vals =>
        match coerce t_in vals with
        | None => ([], Panic)
        | Some rvs =>
            let out := combine t_out (Code code rvs) in
            ([(code, rvs)], pack out)
        end
    end.

End Bridge.

(** ** Instances for the examples *)

(** [Convert] between the integer types and to the interface types; the
    other conversions of Go are not needed by the examples and are left
    undefined here. *)
Definition convert_integers (v : native) (t : gotype) : option native :=
  match t, v with
  | TInt k, (GoInt _ x | GoUint _ x) => Some (GoInt k (wrap_signed (int_bits k) x))
  | TUint k, (GoInt _ x | GoUint _ x) =>
      Some (GoUint k (wrap_unsigned (uint_bits k) x))
  | TInterface, _ => Some v
  | TError, GoError _ => Some v
  | _, _ => None
  end.

(** A table of native functions:
    - 0: [func() (int, int, error)] returning [1, 2, errors.New("boom")];
    - 1: [func() error] returning [nil];
    - 2: [func() error] returning [errors.New("boom")];
    - 3: [func(a int, b int8) (int, error)] returning [a + b, nil];
    - 4: [func() (int, error)] returning [7, errors.New("boom")];
    - 5: [func() (int, string, bool)] returning [1, "x", true];
    - any other index: a function returning nothing. *)
Definition sample_code (code : nat) (args : list native) : list native :=
  match code, args with
  | 0, _ => [GoInt I 1; GoInt I 2; GoError "boom"]
  | 1, _ => [GoNil]
  | 2, _ => [GoError "boom"]
  | 3, [GoInt I a; GoInt I8 b] => [GoInt I (to_int (a + b)); GoNil]
  | 4, _ => [GoInt I 7; GoError "boom"]
  | 5, _ => [GoInt I 1; GoString "x"; GoBool true]
  | _, _ => []
  end.

(** ** Notions the properties are stated with *)

(** The supported scalars: booleans, integers within the range of their
    type, floating-point numbers and strings. *)
Definition scalar (v : native) : Prop :=
  match v with
  | GoBool _ | GoFloat32 _ | GoFloat64 _ | GoString _ => True
  | GoInt k x => int_ok k x
  | GoUint k x => uint_ok k x
  | _ => False
  end.

(** The width normalization: the same value in the 64-bit type of its
    family. *)
Definition widen (v : native) : native :=
  match v with
  | GoInt _ x => GoInt I64 x
  | GoUint _ x => GoUint U64 x
  | GoFloat32 f => GoFloat64 f
  | _ => v
  end.

Definition is_nan (v : native) : bool :=
  match v with
  | GoFloat32 S754_nan | GoFloat64 S754_nan => true
  | _ => false
  end.

(** Encode, then decode. *)
Definition roundtrip (v : native) : option native :=
  match ToValue v with
  | Ok val => FromValue val
  | _ => None
  end.

(** A tuple of two elements that decodes to the named argument [kw]. *)
Definition decodes_to (t : list value) (kw : Kwarg) : Prop :=
  exists k v, t = [k; v]
    /\ FromValue k = Some (GoString (Name kw))
    /\ FromValue v = Some (Value kw).

(** The values that go to Go and back unchanged: [None], booleans,
    integers that fit one of the 64-bit types, floating-point numbers,
    strings, builtins, and lists of such values. *)
Fixpoint plain (v : value) : bool :=
  match v with
  | SNone | SBool _ | SFloat _ | SString _ | SBuiltin _ _ => true
  | SInt x => fits_signedb 64 x || fits_unsignedb 64 x
  | SList l => forallb plain l
  | _ => false
  end.

(** * Properties *)

(** ** Arithmetic of the integer conversions *)

Lemma pow2_split (w : Z) : (0 < w)%Z -> (2 ^ w = 2 * 2 ^ (w - 1))%Z.
Proof.
  intros Hw. replace w with (Z.succ (w - 1)) at 1 by lia.
  rewrite Z.pow_succ_r by lia. reflexivity.
Qed.

Lemma wrap_signed_fits (w x : Z) :
  (0 < w)%Z -> fits_signed w x -> wrap_signed w x = x.
Proof.
  unfold fits_signed, wrap_signed. intros Hw Hx.
  pose proof (pow2_split w Hw) as Hp.
  rewrite Z.mod_small; lia.
Qed.

Lemma wrap_unsigned_fits (w x : Z) :
  fits_unsigned w x -> wrap_unsigned w x = x.
Proof.
  unfold fits_unsigned, wrap_unsigned. intros Hx. now apply Z.mod_small.
Qed.

Lemma fits_signed_mono (w w' x : Z) :
  (0 < w <= w')%Z -> fits_signed w x -> fits_signed w' x.
Proof.
  unfold fits_signed. intros Hw Hx.
  assert (2 ^ (w - 1) <= 2 ^ (w' - 1))%Z by (apply Z.pow_le_mono_r; lia).
  lia.
Qed.

Lemma fits_unsigned_mono (w w' x : Z) :
  (0 <= w <= w')%Z -> fits_unsigned w x -> fits_unsigned w' x.
Proof.
  unfold fits_unsigned. intros Hw Hx.
  assert (2 ^ w <= 2 ^ w')%Z by (apply Z.pow_le_mono_r; lia).
  lia.
Qed.

Lemma int_bits_bounds (k : intKind) : (0 < int_bits k <= 64)%Z.
Proof. destruct k; unfold int_bits, intSize; lia. Qed.

Lemma uint_bits_bounds (k : uintKind) : (0 <= uint_bits k <= 64)%Z.
Proof. destruct k; unfold uint_bits, intSize; lia. Qed.

Lemma fits_signedb_spec (w x : Z) : fits_signedb w x = true <-> fits_signed w x.
Proof. unfold fits_signedb, fits_signed. rewrite andb_true_iff. lia. Qed.

Lemma fits_unsignedb_spec (w x : Z) :
  fits_unsignedb w x = true <-> fits_unsigned w x.
Proof. unfold fits_unsignedb, fits_unsigned. rewrite andb_true_iff. lia. Qed.

Lemma Int64_fits (x : Z) : fits_signed 64 x -> starlark.Int64 x = Some x.
Proof.
  intros H. unfold starlark.Int64.
  now rewrite (proj2 (fits_signedb_spec 64 x) H).
Qed.

Lemma Int64_unfit (x : Z) : ~ fits_signed 64 x -> starlark.Int64 x = None.
Proof.
  intros H. unfold starlark.Int64.
  destruct (fits_signedb 64 x) eqn:E; [|reflexivity].
  now apply fits_signedb_spec in E.
Qed.

Lemma Uint64_fits (x : Z) : fits_unsigned 64 x -> starlark.Uint64 x = Some x.
Proof.
  intros H. unfold starlark.Uint64.
  now rewrite (proj2 (fits_unsignedb_spec 64 x) H).
Qed.

Lemma Uint64_unfit (x : Z) : ~ fits_unsigned 64 x -> starlark.Uint64 x = None.
Proof.
  intros H. unfold starlark.Uint64.
  destruct (fits_unsignedb 64 x) eqn:E; [|reflexivity].
  now apply fits_unsignedb_spec in E.
Qed.

(** ** The encoder on integers *)

Lemma ToValue_GoInt (k : intKind) (x : Z) :
  ToValue (GoInt k x) =
  Ok (SInt (match k with I64 => x | _ => to_int x end)).
Proof. destruct k; reflexivity. Qed.

Lemma ToValue_GoUint (k : uintKind) (x : Z) :
  ToValue (GoUint k x) =
  Ok (SInt (match k with U64 => x | _ => to_uint x end)).
Proof. destruct k; reflexivity. Qed.

Lemma ToValue_int_ok (k : intKind) (x : Z) :
  int_ok k x -> ToValue (GoInt k x) = Ok (SInt x).
Proof.
  intros H. rewrite ToValue_GoInt.
  assert (Hx : to_int x = x).
  { apply wrap_signed_fits; [unfold intSize; lia|].
    apply (fits_signed_mono (int_bits k)); [apply int_bits_bounds | exact H]. }
  destruct k; rewrite ?Hx; reflexivity.
Qed.

Lemma ToValue_uint_ok (k : uintKind) (x : Z) :
  uint_ok k x -> ToValue (GoUint k x) = Ok (SInt x).
Proof.
  intros H. rewrite ToValue_GoUint.
  assert (Hx : to_uint x = x).
  { apply wrap_unsigned_fits.
    apply (fits_unsigned_mono (uint_bits k)); [apply uint_bits_bounds | exact H]. }
  destruct k; rewrite ?Hx; reflexivity.
Qed.

(** C6.  Encoding a signed integer of any width gives the runtime integer
    of the same numeric value, which is representable as a 64-bit signed
    integer; encoding an unsigned integer of any width gives the runtime
    integer of the same numeric value, which is representable as a 64-bit
    unsigned integer. *)
Theorem ToValue_integer_value (x : Z) :
  (forall k, int_ok k x ->
     ToValue (GoInt k x) = Ok (SInt x) /\ starlark.Int64 x = Some x)
  /\
  (forall k, uint_ok k x ->
     ToValue (GoUint k x) = Ok (SInt x) /\ starlark.Uint64 x = Some x).
Proof.
  split; intros k H; split.
  - now apply ToValue_int_ok.
  - apply Int64_fits.
    apply (fits_signed_mono (int_bits k)); [apply int_bits_bounds | exact H].
  - now apply ToValue_uint_ok.
  - apply Uint64_fits.
    apply (fits_unsigned_mono (uint_bits k)); [apply uint_bits_bounds | exact H].
Qed.

Lemma ToValue_integer_value_witness :
  int_ok I16 (-7) /\ ToValue (GoInt I16 (-7)) = Ok (SInt (-7))
  /\ uint_ok U32 4000000000 /\ ToValue (GoUint U32 4000000000) = Ok (SInt 4000000000).
Proof.
  assert (H1 : int_ok I16 (-7)) by (unfold int_ok, fits_signed; simpl; lia).
  assert (H2 : uint_ok U32 4000000000)
    by (unfold uint_ok, fits_unsigned; simpl; lia).
  split; [exact H1|]. split.
  - exact (proj1 (proj1 (ToValue_integer_value (-7)) I16 H1)).
  - split; [exact H2|].
    exact (proj1 (proj2 (ToValue_integer_value 4000000000) U32 H2)).
Defined.

(** ** The decoder on integers *)

(** C7.  A runtime integer decodes to an [int64] when it is representable
    as one, otherwise to a [uint64] when it is representable as one, and
    the decoder panics when it is neither; whatever is decoded is one of
    these two, never a narrower type. *)
Theorem FromValue_integer (x : Z) :
  (fits_signed 64 x -> FromValue (SInt x) = Some (GoInt I64 x))
  /\ (~ fits_signed 64 x -> fits_unsigned 64 x ->
      FromValue (SInt x) = Some (GoUint U64 x))
  /\ (~ fits_signed 64 x -> ~ fits_unsigned 64 x -> FromValue (SInt x) = None)
  /\ (forall v, FromValue (SInt x) = Some v ->
      v = GoInt I64 x \/ v = GoUint U64 x).
Proof.
  repeat split.
  - intros H. simpl. now rewrite Int64_fits.
  - intros H1 H2. simpl. now rewrite Int64_unfit, Uint64_fits.
  - intros H1 H2. simpl. now rewrite Int64_unfit, Uint64_unfit.
  - intros v. simpl. unfold starlark.Int64, starlark.Uint64.
    destruct (fits_signedb 64 x); [intros [= <-]; now left|].
    destruct (fits_unsignedb 64 x); [intros [= <-]; now right|discriminate].
Qed.

Lemma FromValue_integer_witness :
  ~ fits_signed 64 (2 ^ 63) /\ fits_unsigned 64 (2 ^ 63)
  /\ FromValue (SInt (2 ^ 63)) = Some (GoUint U64 (2 ^ 63)).
Proof.
  assert (H1 : ~ fits_signed 64 (2 ^ 63)) by (unfold fits_signed; simpl; lia).
  assert (H2 : fits_unsigned 64 (2 ^ 63)) by (unfold fits_unsigned; simpl; lia).
  split; [exact H1|]. split; [exact H2|].
  exact (proj1 (proj2 (FromValue_integer (2 ^ 63))) H1 H2).
Defined.

(** ** Scalars through both directions *)

Lemma SFeqb_refl (f : spec_float) : f <> S754_nan -> SFeqb f f = true.
Proof.
  intros Hf. unfold SFeqb, SFcompare.
  destruct f as [s|s| |s m e]; try destruct s; try reflexivity;
    try congruence;
    now rewrite Z.compare_refl, Pos.compare_cont_refl.
Qed.

(** C3, as the code has it.  Decoding the encoding of a boolean, a signed
    integer, a floating-point number or a string gives the original in
    the 64-bit type of its family, equal to it under Go's [==] unless it
    is a NaN.  Decoding the encoding of an unsigned integer gives its
    numeric value as an [int64] when it is below [2^63], and as a
    [uint64] only from there on. *)
Theorem scalar_roundtrip (v : native) (H : scalar v) :
  exists d, roundtrip v = Some d /\
    match v with
    | GoUint _ x =>
        d = if (x <? 2 ^ 63)%Z then GoInt I64 x else GoUint U64 x
    | _ => d = widen v /\ (is_nan v = false -> go_eqb d (widen v) = true)
    end.
Proof.
  destruct v; simpl in H; try contradiction.
  - eexists; split; [reflexivity|]. split; [reflexivity|].
    intros _. simpl. apply Bool.eqb_reflx.
  - unfold roundtrip. rewrite (ToValue_int_ok _ _ H).
    assert (H64 : fits_signed 64 x)
      by (apply (fits_signed_mono (int_bits k));
          [apply int_bits_bounds | exact H]).
    simpl. rewrite (Int64_fits _ H64).
    eexists; split; [reflexivity|]. split; [reflexivity|].
    intros _. simpl. apply Z.eqb_refl.
  - unfold roundtrip. rewrite (ToValue_uint_ok _ _ H).
    assert (H64 : fits_unsigned 64 x)
      by (apply (fits_unsigned_mono (uint_bits k));
          [apply uint_bits_bounds | exact H]).
    unfold fits_unsigned in H64. simpl FromValue.
    destruct (x <? 2 ^ 63)%Z eqn:E.
    + apply Z.ltb_lt in E.
      rewrite Int64_fits by (unfold fits_signed; simpl in *; lia).
      eexists; split; reflexivity.
    + apply Z.ltb_ge in E.
      rewrite Int64_unfit by (unfold fits_signed; simpl in *; lia).
      rewrite Uint64_fits by exact H64.
      eexists; split; reflexivity.
  - eexists; split; [reflexivity|]. split; [reflexivity|].
    intros Hn. simpl. apply SFeqb_refl. intros ->. discriminate.
  - eexists; split; [reflexivity|]. split; [reflexivity|].
    intros Hn. simpl. apply SFeqb_refl. intros ->. discriminate.
  - eexists; split; [reflexivity|]. split; [reflexivity|].
    intros _. simpl. apply String.eqb_refl.
Qed.

Lemma scalar_roundtrip_witness :
  scalar (GoInt I16 (-7)) /\
  exists d, roundtrip (GoInt I16 (-7)) = Some d /\
    d = GoInt I64 (-7) /\ (false = false -> go_eqb d (GoInt I64 (-7)) = true).
Proof.
  assert (H : scalar (GoInt I16 (-7)))
    by (unfold scalar, int_ok, fits_signed; simpl; lia).
  split; [exact H|]. exact (scalar_roundtrip (GoInt I16 (-7)) H).
Defined.

(** C3 in its stated form fails on the unsigned integers: the [uint8] 5
    comes back as the [int64] 5, which [==] tells apart from the
    [uint64] 5. *)
Lemma scalar_roundtrip_unsigned_counterexample :
  scalar (GoUint U8 5)
  /\ roundtrip (GoUint U8 5) = Some (GoInt I64 5)
  /\ go_eqb (GoInt I64 5) (widen (GoUint U8 5)) = false.
Proof.
  split; [unfold scalar, uint_ok, fits_unsigned; simpl; lia|].
  split; reflexivity.
Qed.

(** ** Dictionaries *)

Lemma map_replace_values (P : native -> Prop) (m : gomap) (k v : native) :
  Forall (fun kv => P (snd kv)) m -> P v ->
  Forall (fun kv => P (snd kv)) (map_replace m k v).
Proof.
  intros Hm Hv. induction Hm as [|[k' v'] m' Hkv Hm' IH]; simpl.
  - constructor; [exact Hv | constructor].
  - destruct (go_eqb k k'); constructor; simpl; auto.
Qed.

(** Whatever the dictionary, no value of the map that [FromDict] builds
    is decoded: each is a [starlark.Value] still. *)
Lemma decode_keys_values (m entries : starlark.Dict) (ret ret' : gomap) :
  Forall (fun kv => exists val, snd kv = GoValue val) ret ->
  decode_keys FromValue m entries ret = Some ret' ->
  Forall (fun kv => exists val, snd kv = GoValue val) ret'.
Proof.
  revert ret. induction entries as [|[k x] entries IH]; simpl; intros ret Hret.
  - now intros [= <-].
  - destruct (FromValue k) as [key|]; simpl; [|discriminate].
    unfold map_assign. destruct (go_hashable key); simpl; [|discriminate].
    apply IH.
    apply (map_replace_values (fun x => exists val, x = GoValue val));
      [exact Hret | eauto].
Qed.

Lemma FromDict_values (m : starlark.Dict) (ret : gomap) :
  FromDict m = Some ret ->
  Forall (fun kv => exists val, snd kv = GoValue val) ret.
Proof. apply decode_keys_values. constructor. Qed.

(** C4, on the code.  The [map[string]int] [{"a": 1}] encodes to a
    dictionary of one entry, and that dictionary decodes to a map whose
    key is the string ["a"] and whose value is the runtime integer 1,
    not the [int64] 1. *)
Theorem FromDict_value_left_encoded :
  ToValue (GoMap TString (TInt I) [(GoString "a", GoInt I 1)])
    = Ok (SDict [(SString "a", SInt 1)])
  /\ FromValue (SDict [(SString "a", SInt 1)])
    = Some (GoMap TInterface TInterface [(GoString "a", GoValue (SInt 1))])
  /\ FromValue (SInt 1) = Some (GoInt I64 1).
Proof. repeat split. Qed.

(** ** Pointers *)

(** A pointer to a boolean or a number makes the encoder panic: the kind
    is read through the pointer, the payload is not. *)
Lemma ToValue_pointer_to_number (t : gotype) (v : native) :
  is_interface_type t = false ->
  match v with
  | GoBool _ | GoInt _ _ | GoUint _ _ | GoFloat32 _ | GoFloat64 _ => True
  | _ => False
  end ->
  ToValue (GoPtr t (Some v)) = Panicked.
Proof.
  intros Ht Hv. simpl. rewrite Ht.
  destruct v; try contradiction; try reflexivity; destruct k; reflexivity.
Qed.

(** C5, on the code.  Encoding a pointer to the [int] 5 panics, while
    encoding the [int] 5 itself gives the runtime integer 5; a pointer to
    a string encodes to the name of its type. *)
Theorem ToValue_pointer_to_int :
  ToValue (GoPtr (TInt I) (Some (GoInt I 5))) = Panicked
  /\ ToValue (GoInt I 5) = Ok (SInt 5)
  /\ ToValue (GoPtr TString (Some (GoString "abc")))
     = Ok (SString "<*string Value>").
Proof. repeat split. Qed.

(** ** Named arguments *)

Lemma decode_each_length (dec : value -> option native) (l : list value)
    (xs : list native) :
  decode_each dec l = Some xs -> List.length xs = List.length l.
Proof.
  revert xs. induction l as [|v l IH]; simpl; intros xs.
  - now intros [= <-].
  - destruct (dec v); [|discriminate].
    destruct (decode_each dec l); [|discriminate].
    intros [= <-]. simpl. now rewrite (IH _ eq_refl).
Qed.

Lemma FromKwargs_loop_app (pre : list (list value)) (decoded : list Kwarg) :
  Forall2 decodes_to pre decoded ->
  forall rest args,
    FromKwargs_loop (pre ++ rest) args = FromKwargs_loop rest (args ++ decoded).
Proof.
  induction 1 as [|t kw pre decoded Ht _ IH]; intros rest args; simpl.
  - now rewrite app_nil_r.
  - destruct Ht as (k & v & -> & Hk & Hv).
    unfold FromTuple. simpl. rewrite Hk, Hv. simpl.
    rewrite IH, <- app_assoc. destruct kw; reflexivity.
Qed.

(** C9, as the code has it.  When the tuples of [pre] all have two
    elements and decode to the named arguments [decoded], the decoder
    returns [decoded] on [pre]; on [pre] followed by a tuple [t] (and
    anything after [t]) it panics when an element of [t] does not decode,
    fails with the length of [t] when [t] decodes and has not two
    elements, and fails with the decoded first element of [t] when that
    is not a string.  No outcome carries a partial list. *)
Theorem FromKwargs_first_failure (pre : list (list value))
    (decoded : list Kwarg) (H : Forall2 decodes_to pre decoded) :
  FromKwargs pre = Ok decoded
  /\ (forall t post,
        FromTuple t = None -> FromKwargs (pre ++ t :: post) = Panicked)
  /\ (forall t post tup,
        FromTuple t = Some tup -> List.length t <> 2 ->
        FromKwargs (pre ++ t :: post) = Err (KwargShapeLen (List.length t)))
  /\ (forall t post name v,
        FromTuple t = Some [name; v] -> (forall s, name <> GoString s) ->
        FromKwargs (pre ++ t :: post) = Err (KwargShapeName name)).
Proof.
  unfold FromKwargs. repeat split.
  - rewrite <- (app_nil_r pre), (FromKwargs_loop_app _ _ H). reflexivity.
  - intros t post Ht. rewrite (FromKwargs_loop_app _ _ H). simpl.
    now rewrite Ht.
  - intros t post tup Ht Hlen. rewrite (FromKwargs_loop_app _ _ H). simpl.
    rewrite Ht. simpl. rewrite (decode_each_length _ _ _ Ht).
    destruct (Nat.eqb_spec (List.length t) 2); [contradiction|reflexivity].
  - intros t post name v Ht Hname. rewrite (FromKwargs_loop_app _ _ H). simpl.
    rewrite Ht. simpl.
    destruct name; try reflexivity. now destruct (Hname s).
Qed.

Lemma FromKwargs_first_failure_witness :
  Forall2 decodes_to [[SString "x"; SInt 1]]
    [{| Name := "x"; Value := GoInt I64 1 |}]
  /\ FromKwargs [[SString "x"; SInt 1]]
     = Ok [{| Name := "x"; Value := GoInt I64 1 |}]
  /\ FromKwargs ([[SString "x"; SInt 1]] ++ [SString "y"; SInt 2; SInt 3] :: [])
     = Err (KwargShapeLen 3).
Proof.
  assert (H : Forall2 decodes_to [[SString "x"; SInt 1]]
                [{| Name := "x"; Value := GoInt I64 1 |}]).
  { constructor; [|constructor].
    exists (SString "x"), (SInt 1). repeat split. }
  split; [exact H|]. split.
  - exact (proj1 (FromKwargs_first_failure _ _ H)).
  - refine (proj1 (proj2 (proj2 (FromKwargs_first_failure _ _ H)))
              [SString "y"; SInt 2; SInt 3] []
              [GoString "y"; GoInt I64 2; GoInt I64 3] eq_refl _).
    simpl. discriminate.
Defined.

(** C9 in its stated form fails on a tuple holding an integer that fits
    neither 64-bit type: the tuple of the one element [2^64] is the first
    that has not two elements, and the decoder panics on it instead of
    failing with its length. *)
Lemma FromKwargs_panic_counterexample :
  FromKwargs [[SInt (2 ^ 64)]] = Panicked
  /\ FromKwargs [[SInt (2 ^ 64)]] <> Err (KwargShapeLen 1).
Proof. split; [reflexivity | discriminate]. Qed.

(** ** The function bridge *)

Section BridgeProperties.

Variable Convert : native -> gotype -> option native.
Variable Code : nat -> list native -> list native.

(** C8.  Called with a number of positional arguments other than the
    number of parameters, the builtin returns [None] with the error that
    names both numbers, and calls no native code; no argument is decoded,
    so that arguments on which the decoder would panic make no
    difference. *)
Theorem Invoke_arity_mismatch (t_in t_out : list gotype) (code : nat)
    (args : list value) (kwargs : list (list value))
    (H : List.length args <> List.length t_in) :
  Invoke Convert Code t_in t_out code args kwargs =
  ([], Return SNone
         (Some (ArityMismatch (List.length t_in) (List.length args)))).
Proof.
  unfold Invoke.
  destruct (Nat.eqb_spec (List.length args) (List.length t_in));
    [contradiction | reflexivity].
Qed.

(** C10.  The named arguments of a call play no part in it: with the same
    positional arguments, the native calls made and the value and error
    returned are the same whatever the named arguments. *)
Theorem Invoke_ignores_kwargs (t_in t_out : list gotype) (code : nat)
    (args : list value) (kwargs kwargs' : list (list value)) :
  Invoke Convert Code t_in t_out code args kwargs =
  Invoke Convert Code t_in t_out code args kwargs'.
Proof. reflexivity. Qed.

(** With exactly one result before a declared [error], the encoding of
    that result and the error both come back. *)
Lemma pack_one_result (t : gotype) (x e : native) (v : value) :
  gotype_eqb t errType = false -> ToValue x = Ok v ->
  pack [(t, x); (TError, e)] =
  Return v match e with GoNil => None | _ => Some (NativeError e) end.
Proof.
  intros Ht Hx. unfold pack. simpl. rewrite Hx. destruct e; reflexivity.
Qed.

(** With a declared [error] as last result and not exactly one result
    before it, a non-nil error is lost: when the other results encode,
    the builtin returns [None] and a nil error. *)
Lemma pack_loses_error (outs : list (gotype * native)) (e : native)
    (tup : list value) :
  List.length outs <> 1 -> e <> GoNil ->
  MakeTuple (GoSlice TInterface (map snd outs)) = Ok tup ->
  pack (outs ++ [(TError, e)]) = Return SNone None.
Proof.
  intros Hlen He Htup. unfold pack.
  rewrite length_app, Nat.add_comm. simpl.
  rewrite last_last, removelast_last. simpl.
  destruct e; try congruence;
    (destruct outs as [|o [|o' outs]];
     [ reflexivity | now elim Hlen | simpl in Htup |- *; now rewrite Htup ]).
Qed.

End BridgeProperties.

Lemma Invoke_arity_mismatch_witness :
  List.length [SInt (2 ^ 64)] <> List.length (@nil gotype)
  /\ Invoke convert_integers sample_code [] [TInt I; TString; TBool] 5
       [SInt (2 ^ 64)] []
     = ([], Return SNone (Some (ArityMismatch 0 1))).
Proof.
  assert (H : List.length [SInt (2 ^ 64)] <> List.length (@nil gotype))
    by (simpl; discriminate).
  split; [exact H|].
  exact (Invoke_arity_mismatch convert_integers sample_code
           [] [TInt I; TString; TBool] 5 [SInt (2 ^ 64)] [] H).
Defined.

(** C1, on the code.  The function 0 of the table, a
    [func() (int, int, error)], returns [1, 2] and a non-nil error: the
    builtin returns [None] and a nil error, neither the tuple nor the
    error.  With a single result before the error (function 4) value and
    error both come back. *)
Theorem Invoke_error_beside_two_results :
  sample_code 0 [] = [GoInt I 1; GoInt I 2; GoError "boom"]
  /\ Invoke convert_integers sample_code [] [TInt I; TInt I; TError] 0 [] []
     = ([(0, [])], Return SNone None)
  /\ Invoke convert_integers sample_code [] [TInt I; TError] 4 [] []
     = ([(4, [])], Return (SInt 7) (Some (NativeError (GoError "boom")))).
Proof. repeat split. Qed.

(** C2, on the code.  The function 1 of the table, a [func() error],
    returns a nil error: with no result left once the error slot is
    removed, the builtin returns the empty tuple, not [None]. *)
Theorem Invoke_error_only :
  sample_code 1 [] = [GoNil]
  /\ Invoke convert_integers sample_code [] [TError] 1 [] []
     = ([(1, [])], Return (STuple []) None)
  /\ Invoke convert_integers sample_code [] [] 6 [] []
     = ([(6, [])], Return SNone None).
Proof. repeat split. Qed.

(** * Further properties of the converters *)

(** ** Induction through the containers *)

Section NativeInduction.

Variable P : native -> Prop.

Hypothesis HSlice : forall e l, Forall P l -> P (GoSlice e l).
Hypothesis HArray : forall e l, Forall P l -> P (GoArray e l).
Hypothesis HMap :
  forall k e m, Forall (fun kv => P (fst kv) /\ P (snd kv)) m -> P (GoMap k e m).
Hypothesis HOther :
  forall v,
    match v with
    | GoSlice _ _ | GoArray _ _ | GoMap _ _ _ => False
    | _ => True
    end -> P v.

Lemma native_nested_ind (v : native) : P v.
Proof.
  revert v. fix IH 1. intros v.
  destruct v as [ | | | | | | | |e l|e l|k e m| | | | | ];
    try (apply HOther; exact Logic.I).
  - apply HSlice. induction l as [|x l IHl]; constructor; [apply IH | exact IHl].
  - apply HArray. induction l as [|x l IHl]; constructor; [apply IH | exact IHl].
  - apply HMap. induction m as [|[a b] m IHm]; constructor;
      [split; apply IH | exact IHm].
Qed.

End NativeInduction.

Section ValueInduction.

Variable P : value -> Prop.

Hypothesis HList : forall l, Forall P l -> P (SList l).
Hypothesis HOther : forall v, match v with SList _ => False | _ => True end -> P v.

Lemma value_list_ind (v : value) : P v.
Proof.
  revert v. fix IH 1. intros v.
  destruct v as [ | | | | |l| | | | | ]; try (apply HOther; exact Logic.I).
  apply HList. induction l as [|x l IHl]; constructor; [apply IH | exact IHl].
Qed.

End ValueInduction.

(** ** Sequences, element by element *)







(** ** The errors of the encoder *)

Lemma encode_each_error (enc : native -> res value) (l : list native)
    (e : error) :
  encode_each enc l = Err e -> exists x, In x l /\ enc x = Err e.
Proof.
  induction l as [|x l IH]; simpl; [discriminate|].
  destruct (enc x) as [v|e'|] eqn:Ex; simpl; try discriminate.
  - destruct (encode_each enc l) as [vs|e'|]; simpl; try discriminate.
    intros [= <-]. destruct (IH eq_refl) as (y & Hy & Hey). eauto.
  - intros [= <-]. eauto.
Qed.

Lemma encode_entries_error (enc : native -> res value) (m : gomap)
    (dict : starlark.Dict) (e : error) :
  encode_entries enc m dict = Err e ->
  exists kv, In kv m /\ (enc (fst kv) = Err e \/ enc (snd kv) = Err e).
Proof.
  revert dict. induction m as [|[k x] m IH]; simpl; intros dict; [discriminate|].
  destruct (enc k) as [key|e'|] eqn:Ek; simpl; try discriminate.
  - destruct (enc x) as [val|e'|] eqn:Ex; simpl; try discriminate.
    + intros H. destruct (IH _ H) as (kv & Hin & Hkv). eauto.
    + intros [= <-]. exists (k, x). auto.
  - intros [= <-]. exists (k, x). auto.
Qed.

Ltac destruct_matches :=
  repeat match goal with
         | |- context [match ?x with _ => _ end] => is_var x; destruct x
         end.

(** X3.  Whatever the Go value, nested containers included, the only
    error [ToValue] returns is the one on an unsupported type. *)
Theorem ToValue_error_is_unsupported (v : native) (e : error) :
  ToValue v = Err e -> exists t, e = UnsupportedType t.
Proof.
  revert e. induction v using native_nested_ind; intros err.
  - simpl. unfold MakeList_with. simpl.
    destruct (encode_each ToValue l) eqn:El; simpl; try discriminate.
    intros [= <-]. apply encode_each_error in El. destruct El as (x & Hx & Hex).
    rewrite Forall_forall in H. eauto.
  - simpl. unfold MakeList_with. simpl.
    destruct (encode_each ToValue l) eqn:El; simpl; try discriminate.
    intros [= <-]. apply encode_each_error in El. destruct El as (x & Hx & Hex).
    rewrite Forall_forall in H. eauto.
  - simpl.
    destruct (encode_entries ToValue m []) eqn:Em; simpl; try discriminate.
    intros [= <-]. apply encode_entries_error in Em.
    destruct Em as (kv & Hin & Hkv). rewrite Forall_forall in H.
    destruct (H kv Hin) as [Hk Hx]. destruct Hkv; eauto.
  - destruct v; try contradiction; simpl; try discriminate;
      try (intros [= <-]; eauto);
      destruct_matches; simpl; try discriminate; try (intros [= <-]; eauto).
    destruct (is_interface_type elem); [|destruct (Kind n)];
      simpl; try discriminate; intros [= <-]; eauto.
Qed.

Lemma ToValue_error_is_unsupported_witness :
  exists t,
    UnsupportedType (Some (TOther OChan)) = UnsupportedType t.
Proof.
  exact (ToValue_error_is_unsupported
           (GoSlice TInterface [GoInt I 1; GoOther OChan])
           (UnsupportedType (Some (TOther OChan))) eq_refl).
Defined.





(** ** The decoder on sequences *)

Lemma decode_each_Forall2 (dec : value -> option native) (l : list value)
    (xs : list native) :
  decode_each dec l = Some xs <-> Forall2 (fun v x => dec v = Some x) l xs.
Proof.
  revert xs. induction l as [|v l IH]; simpl; intros xs.
  - split.
    + intros [= <-]. constructor.
    + intros H. inversion H. reflexivity.
  - split.
    + destruct (dec v) as [x|] eqn:Ev; simpl; try discriminate.
      destruct (decode_each dec l) as [ys|] eqn:El; simpl; try discriminate.
      intros [= <-]. constructor; [exact Ev | now apply IH].
    + intros H. inversion H as [|v' x l' ys Hv Hl]; subst.
      rewrite Hv. simpl. apply IH in Hl. rewrite Hl. reflexivity.
Qed.

Lemma decode_each_None (dec : value -> option native) (l : list value) :
  decode_each dec l = None <-> exists v, In v l /\ dec v = None.
Proof.
  induction l as [|v l IH]; simpl.
  - split; [discriminate | intros (v & [] & _)].
  - destruct (dec v) as [x|] eqn:Ev; simpl.
    + destruct (decode_each dec l) as [ys|]; simpl.
      * split; [discriminate|].
        intros (w & [<-|Hw] & Hn); [congruence|].
        destruct IH as [_ IH]. discriminate IH. eauto.
      * split; [|reflexivity]. intros _.
        destruct IH as [IH _]. destruct (IH eq_refl) as (w & Hw & Hn). eauto.
    + split; [|reflexivity]. intros _. eauto.
Qed.

(** X6.  [FromTuple] and [FromList] return the decodings of the elements,
    one for one and in order, exactly when [FromValue] decodes every
    element; they panic exactly when it panics on one of them. *)
Theorem FromTuple_elementwise (l : list value) :
  (forall xs, FromTuple l = Some xs
     <-> Forall2 (fun v x => FromValue v = Some x) l xs)
  /\ (forall xs, FromList l = Some xs
        <-> Forall2 (fun v x => FromValue v = Some x) l xs)
  /\ (FromTuple l = None <-> exists v, In v l /\ FromValue v = None).
Proof.
  repeat split; try apply decode_each_Forall2; apply decode_each_None.
Qed.

Lemma FromTuple_elementwise_witness :
  In (SInt (2 ^ 64)) [SBool true; SInt (2 ^ 64)]
  /\ FromValue (SInt (2 ^ 64)) = None
  /\ FromTuple [SBool true; SInt (2 ^ 64)] = None.
Proof.
  assert (H1 : In (SInt (2 ^ 64)) [SBool true; SInt (2 ^ 64)])
    by (right; left; reflexivity).
  split; [exact H1|]. split; [reflexivity|].
  exact (proj2 (proj2 (proj2 (FromTuple_elementwise
                                [SBool true; SInt (2 ^ 64)])))
           (ex_intro _ (SInt (2 ^ 64)) (conj H1 eq_refl))).
Defined.

(** ** Containers through both directions *)

Lemma roundtrip_inv (x x' : native) :
  roundtrip x = Some x' <->
  exists v, ToValue x = Ok v /\ FromValue v = Some x'.
Proof.
  unfold roundtrip. destruct (ToValue x) as [v| |]; split;
    try discriminate; eauto; intros (w & Hw & Hx); congruence.
Qed.

Lemma roundtrip_each (l l' : list native) :
  Forall2 (fun x x' => roundtrip x = Some x') l l' ->
  exists vals,
    encode_each ToValue l = Ok vals /\ decode_each FromValue vals = Some l'.
Proof.
  induction 1 as [|x x' l l' Hx _ (vals & He & Hd)].
  - exists []. split; reflexivity.
  - apply roundtrip_inv in Hx. destruct Hx as (v & Hv & Hx').
    exists (v :: vals). simpl. rewrite Hv, He, Hx', Hd. split; reflexivity.
Qed.

(** X7.  Encoding a slice or an array and decoding the result gives a
    [[]interface{}] of the elements, each one encoded and decoded: the
    element type and the difference between slice and array are lost. *)
Theorem slice_roundtrip (e : gotype) (l l' : list native)
    (H : Forall2 (fun x x' => roundtrip x = Some x') l l') :
  roundtrip (GoSlice e l) = Some (GoSlice TInterface l')
  /\ roundtrip (GoArray e l) = Some (GoSlice TInterface l').
Proof.
  destruct (roundtrip_each _ _ H) as (vals & He & Hd).
  unfold roundtrip. simpl. unfold MakeList_with. simpl.
  rewrite He. simpl. rewrite Hd. split; reflexivity.
Qed.

Lemma slice_roundtrip_witness :
  Forall2 (fun x x' => roundtrip x = Some x')
    [GoInt I16 (-7); GoUint U8 5] [GoInt I64 (-7); GoInt I64 5]
  /\ roundtrip (GoArray (TInt I16) [GoInt I16 (-7); GoUint U8 5])
     = Some (GoSlice TInterface [GoInt I64 (-7); GoInt I64 5]).
Proof.
  assert (H : Forall2 (fun x x' => roundtrip x = Some x')
                [GoInt I16 (-7); GoUint U8 5] [GoInt I64 (-7); GoInt I64 5])
    by (repeat constructor).
  split; [exact H|].
  exact (proj2 (slice_roundtrip (TInt I16) _ _ H)).
Defined.

Lemma plain_decode_encode (v : value) :
  plain v = true -> exists x, FromValue v = Some x /\ ToValue x = Ok v.
Proof.
  induction v using value_list_ind.
  - simpl. intros Hp.
    assert (Hl : exists xs, decode_each FromValue l = Some xs
                            /\ encode_each ToValue xs = Ok l).
    { induction H as [|v l Hv _ IH]; simpl in *.
      - exists []. split; reflexivity.
      - apply andb_true_iff in Hp. destruct Hp as [Hpv Hpl].
        destruct (Hv Hpv) as (x & Hx & Hx').
        destruct (IH Hpl) as (xs & Hxs & Hxs').
        exists (x :: xs). rewrite Hx. simpl. rewrite Hxs, Hx'. simpl.
        rewrite Hxs'. split; reflexivity. }
    destruct Hl as (xs & Hxs & Hxs').
    exists (GoSlice TInterface xs). rewrite Hxs. split; [reflexivity|].
    simpl. unfold MakeList_with. simpl. rewrite Hxs'. reflexivity.
  - destruct v; try contradiction; simpl; try discriminate;
      try (intros _; eexists; split; reflexivity).
    unfold starlark.Int64, starlark.Uint64. intros Hp.
    destruct (fits_signedb 64 x); [eexists; split; reflexivity|].
    simpl in Hp. rewrite Hp. eexists; split; reflexivity.
Qed.

(** X8.  Decoding a plain value (no tuple, dictionary, set or record in
    it, every integer within one of the 64-bit types) never panics, and
    encoding what was decoded gives the value back. *)
Theorem plain_roundtrip (v : value) (H : plain v = true) :
  exists x, FromValue v = Some x /\ ToValue x = Ok v.
Proof. exact (plain_decode_encode v H). Qed.

Lemma plain_roundtrip_witness :
  exists x,
    FromValue (SList [SInt (2 ^ 63); SString "a"; SList [SNone]]) = Some x
    /\ ToValue x = Ok (SList [SInt (2 ^ 63); SString "a"; SList [SNone]]).
Proof.
  exact (plain_roundtrip (SList [SInt (2 ^ 63); SString "a"; SList [SNone]])
           eq_refl).
Defined.

(** X9.  A tuple of plain values does not come back as a tuple: decoding
    it and encoding the result gives the list of the same elements. *)
Theorem tuple_comes_back_as_list (l : list value)
    (H : forallb plain l = true) :
  exists x, FromValue (STuple l) = Some x /\ ToValue x = Ok (SList l).
Proof. exact (plain_decode_encode (SList l) H). Qed.

Lemma tuple_comes_back_as_list_witness :
  exists x, FromValue (STuple [SInt 1; SBool true]) = Some x
            /\ ToValue x = Ok (SList [SInt 1; SBool true]).
Proof. exact (tuple_comes_back_as_list [SInt 1; SBool true] eq_refl). Defined.

(** ** Named arguments, the converse *)

Lemma FromKwargs_loop_inv (kwargs : list (list value)) :
  forall args ret,
    FromKwargs_loop kwargs args = Ok ret ->
    exists decoded, ret = args ++ decoded /\ Forall2 decodes_to kwargs decoded.
Proof.
  induction kwargs as [|t kwargs IH]; simpl; intros args ret.
  - intros [= <-]. exists []. split; [now rewrite app_nil_r | constructor].
  - destruct (FromTuple t) as [tup|] eqn:Et; simpl; [|discriminate].
    destruct tup as [|a [|b [|c tup]]]; simpl; try discriminate.
    destruct a; try discriminate. intros H.
    destruct (IH _ _ H) as (decoded & -> & Hd).
    exists ({| Name := s; Value := b |} :: decoded). split.
    + now rewrite <- app_assoc.
    + constructor; [|exact Hd].
      apply decode_each_Forall2 in Et.
      inversion Et as [|k x l xs Hk Hl]; subst.
      inversion Hl as [|v y l' ys Hv Hl']; subst.
      inversion Hl'; subst. exists k, v. repeat split; assumption.
Qed.

(** X10.  [FromKwargs] returns a list of named arguments exactly when
    every tuple has two elements, the first decoding to a string and the
    second decoding: the list then has one entry per tuple, in order,
    with the decoded name and the decoded value. *)
Theorem FromKwargs_ok_iff (kwargs : list (list value)) (args : list Kwarg) :
  FromKwargs kwargs = Ok args <-> Forall2 decodes_to kwargs args.
Proof.
  unfold FromKwargs. split.
  - intros H. destruct (FromKwargs_loop_inv _ _ _ H) as (decoded & -> & Hd).
    exact Hd.
  - intros H. rewrite <- (app_nil_r kwargs), (FromKwargs_loop_app _ _ H).
    reflexivity.
Qed.

Lemma FromKwargs_ok_iff_witness :
  Forall2 decodes_to [[SString "x"; SInt 1]; [SString "y"; SList []]]
    [{| Name := "x"; Value := GoInt I64 1 |};
     {| Name := "y"; Value := GoSlice TInterface [] |}].
Proof.
  exact (proj1 (FromKwargs_ok_iff
                  [[SString "x"; SInt 1]; [SString "y"; SList []]]
                  [{| Name := "x"; Value := GoInt I64 1 |};
                   {| Name := "y"; Value := GoSlice TInterface [] |}])
           eq_refl).
Defined.

(** ** String dictionaries *)

(** X11.  [FromStringDict] returns a map exactly when every value
    decodes, and the map then has, for every entry, the same name with
    the decoded value: unlike [FromDict], it decodes the values. *)
Theorem FromStringDict_decodes_values (m : list (string * value))
    (ret : gomap) :
  FromStringDict m = Some ret <->
  Forall2 (fun kv r => fst r = GoString (fst kv)
                       /\ FromValue (snd kv) = Some (snd r)) m ret.
Proof.
  revert ret. induction m as [|[k v] m IH]; simpl; intros ret.
  - split.
    + intros [= <-]. constructor.
    + intros H. inversion H. reflexivity.
  - split.
    + destruct (FromValue v) as [x|] eqn:Ev; simpl; try discriminate.
      destruct (FromStringDict m) as [r|] eqn:Em; simpl; try discriminate.
      intros [= <-]. constructor; [split; [reflexivity | exact Ev]|].
      now apply IH.
    + intros H. inversion H as [|kv [k' x] m' r [Hk Hv] Hm]; subst.
      simpl in *. subst k'. rewrite Hv. simpl. apply IH in Hm. rewrite Hm.
      reflexivity.
Qed.

Lemma FromStringDict_decodes_values_witness :
  Forall2 (fun kv r => fst r = GoString (fst kv)
                       /\ FromValue (snd kv) = Some (snd r))
    [("a", SInt 1); ("b", SString "x")]
    [(GoString "a", GoInt I64 1); (GoString "b", GoString "x")].
Proof.
  exact (proj1 (FromStringDict_decodes_values
                  [("a", SInt 1); ("b", SString "x")]
                  [(GoString "a", GoInt I64 1); (GoString "b", GoString "x")])
           eq_refl).
Defined.

(** X12.  [MakeStringDict] returns a dictionary exactly when every value
    encodes, and the dictionary then has, for every entry, the same name
    with the encoded value. *)
Theorem MakeStringDict_encodes_values (m : list (string * native))
    (dict : list (string * value)) :
  MakeStringDict m = Ok dict <->
  Forall2 (fun kv r => fst r = fst kv /\ ToValue (snd kv) = Ok (snd r)) m dict.
Proof.
  revert dict. induction m as [|[k v] m IH]; simpl; intros dict.
  - split.
    + intros [= <-]. constructor.
    + intros H. inversion H. reflexivity.
  - split.
    + destruct (ToValue v) as [x| |] eqn:Ev; simpl; try discriminate.
      destruct (MakeStringDict m) as [r| |] eqn:Em; simpl; try discriminate.
      intros [= <-]. constructor; [split; [reflexivity | exact Ev]|].
      now apply IH.
    + intros H. inversion H as [|kv [k' x] m' r [Hk Hv] Hm]; subst.
      simpl in *. subst k'. rewrite Hv. simpl. apply IH in Hm. rewrite Hm.
      reflexivity.
Qed.

Lemma MakeStringDict_encodes_values_witness :
  Forall2 (fun kv r => fst r = fst kv /\ ToValue (snd kv) = Ok (snd r))
    [("a", GoInt I8 1); ("b", GoSlice TBool [GoBool true])]
    [("a", SInt 1); ("b", SList [SBool true])].
Proof.
  exact (proj1 (MakeStringDict_encodes_values
                  [("a", GoInt I8 1); ("b", GoSlice TBool [GoBool true])]
                  [("a", SInt 1); ("b", SList [SBool true])])
           eq_refl).
Defined.

(** X13.  [MakeStringDict] followed by [FromStringDict] gives a map with
    the same names, each value encoded and decoded, whenever every value
    goes through both. *)
Theorem StringDict_roundtrip (m : list (string * native)) (ret : gomap)
    (H : Forall2 (fun kv r => fst r = GoString (fst kv)
                              /\ roundtrip (snd kv) = Some (snd r)) m ret) :
  exists dict, MakeStringDict m = Ok dict /\ FromStringDict dict = Some ret.
Proof.
  induction H as [|[k x] [k' x'] m ret [Hk Hx] _ (dict & Hm & Hf)].
  - exists []. split; reflexivity.
  - simpl in Hk, Hx. subst k'. apply roundtrip_inv in Hx.
    destruct Hx as (v & Hv & Hx').
    exists ((k, v) :: dict). simpl. rewrite Hv, Hm, Hx', Hf.
    split; reflexivity.
Qed.

Lemma StringDict_roundtrip_witness :
  exists dict,
    MakeStringDict [("n", GoUint U8 5)] = Ok dict
    /\ FromStringDict dict = Some [(GoString "n", GoInt I64 5)].
Proof.
  apply (StringDict_roundtrip [("n", GoUint U8 5)]
           [(GoString "n", GoInt I64 5)]).
  constructor; [split; reflexivity | constructor].
Defined.

(** ** Dictionaries and sets *)

Lemma encode_entries_app (enc : native -> res value) (m1 m2 : gomap)
    (dict : starlark.Dict) :
  encode_entries enc (m1 ++ m2) dict =
  bind (encode_entries enc m1 dict) (encode_entries enc m2).
Proof.
  revert dict. induction m1 as [|[k x] m1 IH]; simpl; intros dict;
    [reflexivity|].
  destruct (enc k); simpl; try reflexivity.
  destruct (enc x); simpl; try reflexivity. apply IH.
Qed.

(** X14.  [MakeDict] drops the result of [dict.SetKey]: an entry whose
    key encodes to an unhashable value (a list, for an array key) is left
    out without any error, as if the map did not have it. *)
Theorem MakeDict_drops_unhashable_key (kt et : gotype) (m1 m2 : gomap)
    (k x : native) (key val : value)
    (Hk : ToValue k = Ok key) (Hh : starlark.Hashable key = false)
    (Hx : ToValue x = Ok val) :
  MakeDict (GoMap kt et (m1 ++ (k, x) :: m2)) = MakeDict (GoMap kt et (m1 ++ m2)).
Proof.
  unfold MakeDict, MakeDict_with. rewrite !encode_entries_app.
  destruct (encode_entries ToValue m1 []) as [d| |]; simpl; try reflexivity.
  rewrite Hk, Hx. simpl. unfold starlark.SetKey. rewrite Hh. reflexivity.
Qed.

Lemma MakeDict_drops_unhashable_key_witness :
  MakeDict (GoMap (TArray 1 (TInt I)) TString
              ([(GoArray (TInt I) [GoInt I 1], GoString "a")]
               ++ (GoArray (TInt I) [GoInt I 2], GoString "b") :: []))
  = MakeDict (GoMap (TArray 1 (TInt I)) TString
                ([(GoArray (TInt I) [GoInt I 1], GoString "a")] ++ [])).
Proof.
  exact (MakeDict_drops_unhashable_key (TArray 1 (TInt I)) TString
           [(GoArray (TInt I) [GoInt I 1], GoString "a")] []
           (GoArray (TInt I) [GoInt I 2]) (GoString "b")
           (SList [SInt 2]) (SString "b") eq_refl eq_refl eq_refl).
Defined.

Lemma decode_keys_tuple_key (m entries : starlark.Dict) (ret : gomap)
    (l : list value) (v : value) :
  In (STuple l, v) entries -> decode_keys FromValue m entries ret = None.
Proof.
  revert ret. induction entries as [|[k x] entries IH]; intros ret; [intros []|].
  intros [[= -> ->]|Hin].
  - simpl. destruct (decode_each FromValue l); reflexivity.
  - simpl. destruct (FromValue k) as [key|]; simpl; [|reflexivity].
    destruct (map_assign ret key _); simpl; [|reflexivity]. now apply IH.
Qed.

Lemma decode_members_tuple (s : list value) (ret : gomap) (l : list value) :
  In (STuple l) s -> decode_members FromValue s ret = None.
Proof.
  revert ret. induction s as [|v s IH]; intros ret; [intros []|].
  intros [->|Hin].
  - simpl. destruct (decode_each FromValue l); reflexivity.
  - simpl. destruct (FromValue v) as [val|]; simpl; [|reflexivity].
    destruct (map_assign ret val _); simpl; [|reflexivity]. now apply IH.
Qed.

(** X15.  A tuple is a legal key of a dictionary and a legal member of a
    set, but it decodes to a slice, which no Go map takes as a key:
    decoding a dictionary with a tuple among its keys, or a set with a
    tuple among its members, always panics. *)
Theorem tuple_key_panics (l : list value) :
  (forall m v, In (STuple l, v) m ->
     FromDict m = None /\ FromValue (SDict m) = None)
  /\ (forall s, In (STuple l) s ->
        FromSet s = None /\ FromValue (SSet s) = None).
Proof.
  split.
  - intros m v Hin. unfold FromDict. simpl.
    rewrite (decode_keys_tuple_key m m [] l v Hin). split; reflexivity.
  - intros s Hin. unfold FromSet. simpl.
    rewrite (decode_members_tuple s [] l Hin). split; reflexivity.
Qed.

Lemma tuple_key_panics_witness :
  In (STuple [SInt 1; SInt 2], SString "p")
    [(SString "k", SInt 0); (STuple [SInt 1; SInt 2], SString "p")]
  /\ FromValue (SDict [(SString "k", SInt 0);
                       (STuple [SInt 1; SInt 2], SString "p")]) = None.
Proof.
  assert (H : In (STuple [SInt 1; SInt 2], SString "p")
                [(SString "k", SInt 0); (STuple [SInt 1; SInt 2], SString "p")])
    by (right; left; reflexivity).
  split; [exact H|].
  exact (proj2 (proj1 (tuple_key_panics [SInt 1; SInt 2]) _ _ H)).
Defined.

Lemma map_replace_fst (m : gomap) (k v : native) :
  (exists k', In k' (map fst m) /\ go_eqb k k' = true
              /\ map fst (map_replace m k v) = map fst m)
  \/ map fst (map_replace m k v) = map fst m ++ [k].
Proof.
  induction m as [|[k' v'] m IH]; simpl.
  - right. reflexivity.
  - destruct (go_eqb k k') eqn:E; simpl.
    + left. exists k'. auto.
    + destruct IH as [(k'' & Hin & He & Hm)|Hm].
      * left. exists k''. rewrite Hm. auto.
      * right. now rewrite Hm.
Qed.

Lemma map_replace_flags (m : gomap) (k : native) :
  Forall (fun kv => snd kv = GoBool true) m ->
  Forall (fun kv => snd kv = GoBool true) (map_replace m k (GoBool true)).
Proof.
  intros Hm. induction Hm as [|[k' v'] m' Hkv Hm' IH]; simpl.
  - constructor; [reflexivity | constructor].
  - destruct (go_eqb k k'); constructor; simpl; auto.
Qed.

Lemma decode_members_inv (s : list value) :
  forall ret ret',
    Forall (fun kv => snd kv = GoBool true) ret ->
    decode_members FromValue s ret = Some ret' ->
    Forall (fun kv => snd kv = GoBool true) ret'
    /\ (forall k, In k (map fst ret) -> In k (map fst ret'))
    /\ (forall v, In v s ->
          exists x k, FromValue v = Some x /\ In k (map fst ret')
                      /\ (k = x \/ go_eqb x k = true)).
Proof.
  induction s as [|v s IH]; simpl; intros ret ret' Hret.
  - intros [= <-]. repeat split; auto. intros v [].
  - destruct (FromValue v) as [x|] eqn:Ev; simpl; [|discriminate].
    unfold map_assign. destruct (go_hashable x); simpl; [|discriminate].
    intros H.
    destruct (IH _ _ (map_replace_flags ret x Hret) H) as (Hf & Hk & Hv).
    assert (Hsub : forall k, In k (map fst ret) ->
                             In k (map fst (map_replace ret x (GoBool true)))).
    { intros k Hin.
      destruct (map_replace_fst ret x (GoBool true))
        as [(k' & _ & _ & ->)| ->]; [exact Hin|].
      apply in_or_app. now left. }
    repeat split; [exact Hf | auto |].
    intros w [<-|Hw]; [|now apply Hv].
    exists x.
    destruct (map_replace_fst ret x (GoBool true))
      as [(k' & Hin & He & Hm)|Hm].
    + exists k'. split; [exact Ev|].
      split; [apply Hk; rewrite Hm; exact Hin | right; exact He].
    + exists x. split; [exact Ev|].
      split; [|left; reflexivity].
      apply Hk. rewrite Hm. apply in_or_app. right. now left.
Qed.

(** X16.  In the map [FromSet] returns every flag is [true], and every
    member of the set has its decoding among the keys (the same value, or
    one equal to it under [==]). *)
Theorem FromSet_members (s : list value) (ret : gomap)
    (H : FromSet s = Some ret) :
  Forall (fun kv => snd kv = GoBool true) ret
  /\ (forall v, In v s ->
        exists x k, FromValue v = Some x /\ In k (map fst ret)
                    /\ (k = x \/ go_eqb x k = true)).
Proof.
  destruct (decode_members_inv s [] ret (Forall_nil _) H) as (Hf & _ & Hv).
  split; assumption.
Qed.

Lemma FromSet_members_witness :
  Forall (fun kv => snd kv = GoBool true)
    [(GoInt I64 1, GoBool true); (GoString "a", GoBool true)].
Proof.
  exact (proj1 (FromSet_members [SInt 1; SString "a"]
                  [(GoInt I64 1, GoBool true); (GoString "a", GoBool true)]
                  eq_refl)).
Defined.

(** ** Maps keyed by strings, through both directions *)

Section StringKeys.

(** An entry of a dictionary, and an entry of a decoded map, under a
    string key. *)
Let dict_entry (kv : string * value) : value * value :=
  (SString (fst kv), snd kv).
Let map_entry (kv : string * value) : native * native :=
  (GoString (fst kv), GoValue (snd kv)).

Lemma replace_fresh (d : list (string * value)) (s : string) (v : value) :
  ~ In s (map fst d) ->
  starlark.replace (map dict_entry d) (SString s) v
  = map dict_entry (d ++ [(s, v)]).
Proof.
  induction d as [|[s' v'] d IH]; simpl; intros Hs; [reflexivity|].
  destruct (String.eqb_spec s s') as [->|Hne]; [tauto|].
  unfold dict_entry at 1 3. simpl. f_equal. apply IH. tauto.
Qed.

Lemma map_replace_fresh (r : list (string * value)) (s : string) (v : value) :
  ~ In s (map fst r) ->
  map_replace (map map_entry r) (GoString s) (GoValue v)
  = map map_entry (r ++ [(s, v)]).
Proof.
  induction r as [|[s' v'] r IH]; simpl; intros Hs; [reflexivity|].
  destruct (String.eqb_spec s s') as [->|Hne]; [tauto|].
  unfold map_entry at 1 3. simpl. f_equal. apply IH. tauto.
Qed.

Lemma Get_string_key (d : list (string * value)) (s : string) (v : value) :
  NoDup (map fst d) -> In (s, v) d ->
  starlark.Get (map dict_entry d) (SString s) = (v, true).
Proof.
  induction d as [|[s' v'] d IH]; simpl; intros Hnd Hin; [contradiction|].
  inversion Hnd as [|? ? Hs' Hnd']; subst.
  destruct (String.eqb_spec s s') as [->|Hne].
  - destruct Hin as [[= ->]|Hin]; [reflexivity|].
    exfalso. apply Hs'. apply (in_map fst) in Hin. exact Hin.
  - destruct Hin as [[= -> _]|Hin]; [congruence|]. now apply IH.
Qed.

Lemma encode_entries_strings (m : list (string * native)) (vals : list value) :
  Forall2 (fun kx v => ToValue (snd kx) = Ok v) m vals ->
  forall d,
    NoDup (map fst d ++ map fst m) ->
    encode_entries ToValue (map (fun kx => (GoString (fst kx), snd kx)) m)
      (map dict_entry d)
    = Ok (map dict_entry (d ++ combine (map fst m) vals)).
Proof.
  induction 1 as [|[s x] v m vals Hx _ IH]; intros d Hnd.
  - simpl. now rewrite app_nil_r.
  - simpl in *. rewrite Hx. simpl.
    rewrite replace_fresh.
    + rewrite IH.
      * now rewrite <- app_assoc.
      * rewrite map_app, <- app_assoc. exact Hnd.
    + apply NoDup_remove_2 in Hnd. intros Hin. apply Hnd.
      apply in_or_app. now left.
Qed.

Lemma decode_keys_strings (M : list (string * value)) :
  NoDup (map fst M) ->
  forall entries r,
    incl entries M ->
    NoDup (map fst r ++ map fst entries) ->
    decode_keys FromValue (map dict_entry M) (map dict_entry entries)
      (map map_entry r)
    = Some (map map_entry (r ++ entries)).
Proof.
  intros HM. induction entries as [|[s v] entries IH]; intros r Hincl Hnd.
  - simpl. now rewrite app_nil_r.
  - simpl in *. rewrite (Get_string_key M s v HM) by (apply Hincl; now left).
    simpl. rewrite map_replace_fresh.
    + rewrite IH.
      * now rewrite <- app_assoc.
      * intros kv Hkv. apply Hincl. now right.
      * rewrite map_app, <- app_assoc. exact Hnd.
    + apply NoDup_remove_2 in Hnd. intros Hin. apply Hnd.
      apply in_or_app. now left.
Qed.

Lemma map_fst_combine {A B : Type} (l : list A) (l' : list B) :
  List.length l = List.length l' -> map fst (combine l l') = l.
Proof.
  revert l'. induction l as [|a l IH]; intros [|b l']; simpl;
    try discriminate; [reflexivity|].
  intros [= H]. now rewrite IH.
Qed.

(** X17.  A Go map with distinct string keys whose values all encode goes
    to a dictionary with one entry per key, in order, and that dictionary
    decodes to a [map[interface{}]interface{}] with the same string keys,
    each bound to the encoded value, still a [starlark.Value]. *)
Theorem string_map_roundtrip (kt et : gotype) (m : list (string * native))
    (vals : list value)
    (Hkeys : NoDup (map fst m))
    (Hvals : Forall2 (fun kx v => ToValue (snd kx) = Ok v) m vals) :
  ToValue (GoMap kt et (map (fun kx => (GoString (fst kx), snd kx)) m))
  = Ok (SDict (combine (map SString (map fst m)) vals))
  /\ FromValue (SDict (combine (map SString (map fst m)) vals))
     = Some (GoMap TInterface TInterface
               (combine (map GoString (map fst m)) (map GoValue vals))).
Proof.
  assert (Hlen : List.length (map fst m) = List.length vals)
    by (rewrite length_map; exact (Forall2_length Hvals)).
  assert (Hd : combine (map SString (map fst m)) vals
               = map dict_entry (combine (map fst m) vals)).
  { clear Hkeys Hvals. revert Hlen. generalize (map fst m) as ks.
    intros ks. revert vals. induction ks as [|k ks IH]; intros [|v vals];
      simpl; try discriminate; [reflexivity|].
    intros [= H]. now rewrite IH. }
  assert (Hm : combine (map GoString (map fst m)) (map GoValue vals)
               = map map_entry (combine (map fst m) vals)).
  { clear Hkeys Hvals Hd. revert Hlen. generalize (map fst m) as ks.
    intros ks. revert vals. induction ks as [|k ks IH]; intros [|v vals];
      simpl; try discriminate; [reflexivity|].
    intros [= H]. now rewrite IH. }
  rewrite Hd, Hm. split.
  - pose proof (encode_entries_strings m vals Hvals [] Hkeys) as He.
    change (map dict_entry []) with (@nil (value * value)) in He.
    simpl in He |- *. rewrite He. reflexivity.
  - assert (Hnd : NoDup (map fst (combine (map fst m) vals)))
      by now rewrite map_fst_combine.
    pose proof (decode_keys_strings (combine (map fst m) vals) Hnd
                  (combine (map fst m) vals) [] (incl_refl _) Hnd) as Hk.
    change (map map_entry []) with (@nil (native * native)) in Hk.
    simpl in Hk |- *. rewrite Hk. reflexivity.
Qed.

End StringKeys.

Lemma string_map_roundtrip_witness :
  NoDup (map fst [("a", GoInt I 1); ("b", GoInt I 2)])
  /\ Forall2 (fun kx v => ToValue (snd kx) = Ok v)
       [("a", GoInt I 1); ("b", GoInt I 2)] [SInt 1; SInt 2]
  /\ FromValue (SDict [(SString "a", SInt 1); (SString "b", SInt 2)])
     = Some (GoMap TInterface TInterface
               [(GoString "a", GoValue (SInt 1));
                (GoString "b", GoValue (SInt 2))]).
Proof.
  assert (H1 : NoDup (map fst [("a", GoInt I 1); ("b", GoInt I 2)])).
  { simpl. constructor; [intros [H|[]]; discriminate H|].
    constructor; [intros []|constructor]. }
  assert (H2 : Forall2 (fun kx v => ToValue (snd kx) = Ok v)
                 [("a", GoInt I 1); ("b", GoInt I 2)] [SInt 1; SInt 2])
    by (repeat constructor).
  split; [exact H1|]. split; [exact H2|].
  exact (proj2 (string_map_roundtrip TString (TInt I) _ _ H1 H2)).
Defined.

(** ** The function bridge, further *)

Lemma gotype_eqb_refl (t : gotype) : gotype_eqb t t = true.
Proof.
  revert t. fix IH 1. intros t.
  destruct t as [ |k|k| | | |e|n e|k e|e|ins outs| | |name|k|name]; simpl;
    try reflexivity.
  - destruct k; reflexivity.
  - destruct k; reflexivity.
  - apply IH.
  - now rewrite Nat.eqb_refl, IH.
  - now rewrite !IH.
  - apply IH.
  - assert (Hl : forall l, list_eqb gotype_eqb l l = true).
    { intros l. induction l as [|a l IHl]; simpl; [reflexivity|].
      now rewrite IH, IHl. }
    now rewrite !Hl.
  - apply String.eqb_refl.
  - destruct k; reflexivity.
  - apply String.eqb_refl.
Qed.

Section BridgeFurther.

Variable Convert : native -> gotype -> option native.
Variable Code : nat -> list native -> list native.

Lemma coerce_same_types (t_in : list gotype) (vals : list native) :
  Forall2 (fun v t => TypeOf v = Some t) vals t_in ->
  coerce Convert t_in vals = Some vals.
Proof.
  induction 1 as [|v t vals t_in Hv _ IH]; simpl; [reflexivity|].
  rewrite Hv, gotype_eqb_refl. simpl. rewrite IH. reflexivity.
Qed.

Lemma coerce_length (t_in : list gotype) (vals rvs : list native) :
  coerce Convert t_in vals = Some rvs -> List.length rvs = List.length vals.
Proof.
  revert t_in rvs. induction vals as [|v vals IH]; intros t_in rvs.
  - destruct t_in; simpl; now intros [= <-].
  - destruct t_in as [|argT t_in]; simpl;
      (destruct (TypeOf v) as [ty|]; [|discriminate]); [discriminate|].
    destruct (if negb (gotype_eqb ty argT) then Convert v argT else Some v);
      simpl; [|discriminate].
    destruct (coerce Convert t_in vals) as [r|] eqn:Ec; simpl; [|discriminate].
    intros [= <-]. simpl. now rewrite (IH _ _ Ec).
Qed.

(** X18.  When the positional arguments decode to values whose dynamic
    types are the declared parameter types, the native function is called
    on exactly these values: [Convert] plays no part, and the outcome is
    the packing of what the function returns. *)
Theorem Invoke_same_types (t_in t_out : list gotype) (code : nat)
    (args : list value) (kwargs : list (list value)) (vals : list native)
    (Hargs : FromTuple args = Some vals)
    (Htypes : Forall2 (fun v t => TypeOf v = Some t) vals t_in) :
  Invoke Convert Code t_in t_out code args kwargs =
  ([(code, vals)], pack (combine t_out (Code code vals))).
Proof.
  unfold Invoke.
  assert (Hlen : List.length args = List.length t_in).
  { rewrite <- (decode_each_length _ _ _ Hargs). exact (Forall2_length Htypes). }
  rewrite Hlen, Nat.eqb_refl. simpl.
  rewrite Hargs, (coerce_same_types _ _ Htypes). reflexivity.
Qed.

(** X19.  A call of the builtin runs the native function at most once,
    and then on as many arguments as it has parameters; when it does not
    run it, the builtin either reports the arity mismatch or panics. *)
Theorem Invoke_calls_at_most_once (t_in t_out : list gotype) (code : nat)
    (args : list value) (kwargs : list (list value)) :
  (fst (Invoke Convert Code t_in t_out code args kwargs) = []
   /\ (snd (Invoke Convert Code t_in t_out code args kwargs) = Panic
       \/ (List.length args <> List.length t_in
           /\ snd (Invoke Convert Code t_in t_out code args kwargs)
              = Return SNone (Some (ArityMismatch (List.length t_in)
                                      (List.length args))))))
  \/ (exists rvs,
        Invoke Convert Code t_in t_out code args kwargs
        = ([(code, rvs)], pack (combine t_out (Code code rvs)))
        /\ List.length rvs = List.length t_in).
Proof.
  unfold Invoke.
  destruct (Nat.eqb_spec (List.length args) (List.length t_in)) as [Hlen|Hlen];
    simpl; [|left; auto].
  destruct (FromTuple args) as [vals|] eqn:Hargs; [|left; auto].
  destruct (coerce Convert t_in vals) as [rvs|] eqn:Hc; [|left; auto].
  right. exists rvs. split; [reflexivity|].
  rewrite (coerce_length _ _ _ Hc), (decode_each_length _ _ _ Hargs).
  exact Hlen.
Qed.

(** X22.  With a declared [error] as last result that comes back nil and
    not exactly one result before it, the builtin returns the tuple of
    the encoded results; when one of them does not encode, that error is
    not reported: the builtin returns the empty tuple and a nil error. *)
Theorem pack_nil_error (outs : list (gotype * native))
    (H : List.length outs <> 1) :
  pack (outs ++ [(TError, GoNil)]) =
  match MakeTuple (GoSlice TInterface (map snd outs)) with
  | Ok tup => Return (STuple tup) None
  | Err _ => Return (STuple []) None
  | Panicked => Panic
  end.
Proof.
  unfold pack. rewrite length_app, Nat.add_comm. simpl.
  rewrite last_last, removelast_last. simpl.
  destruct outs as [|o [|o' outs]]; [reflexivity | now elim H |].
  destruct (MakeTuple (GoSlice TInterface (map snd (o :: o' :: outs))));
    reflexivity.
Qed.

End BridgeFurther.

Lemma Invoke_same_types_witness :
  FromTuple [SInt 40; SInt 2] = Some [GoInt I64 40; GoInt I64 2]
  /\ Forall2 (fun v t => TypeOf v = Some t) [GoInt I64 40; GoInt I64 2]
       [TInt I64; TInt I64]
  /\ Invoke (fun _ _ => None) sample_code [TInt I64; TInt I64] [TInt I] 5
       [SInt 40; SInt 2] []
     = ([(5, [GoInt I64 40; GoInt I64 2])],
        pack (combine [TInt I]
                (sample_code 5 [GoInt I64 40; GoInt I64 2]))).
Proof.
  assert (H : Forall2 (fun v t => TypeOf v = Some t)
                [GoInt I64 40; GoInt I64 2] [TInt I64; TInt I64])
    by (repeat constructor).
  split; [reflexivity|]. split; [exact H|].
  exact (Invoke_same_types (fun _ _ => None) sample_code
           [TInt I64; TInt I64] [TInt I] 5 [SInt 40; SInt 2] []
           [GoInt I64 40; GoInt I64 2] eq_refl H).
Defined.

Lemma Invoke_calls_at_most_once_witness :
  (fst (Invoke convert_integers sample_code [TInt I; TInt I8] [TInt I; TError]
          3 [SInt 40; SInt 2] []) = []
   /\ (snd (Invoke convert_integers sample_code [TInt I; TInt I8]
              [TInt I; TError] 3 [SInt 40; SInt 2] []) = Panic
       \/ (List.length [SInt 40; SInt 2] <> List.length [TInt I; TInt I8]
           /\ snd (Invoke convert_integers sample_code [TInt I; TInt I8]
                     [TInt I; TError] 3 [SInt 40; SInt 2] [])
              = Return SNone (Some (ArityMismatch
                                      (List.length [TInt I; TInt I8])
                                      (List.length [SInt 40; SInt 2]))))))
  \/ (exists rvs,
        Invoke convert_integers sample_code [TInt I; TInt I8] [TInt I; TError]
          3 [SInt 40; SInt 2] []
        = ([(3, rvs)], pack (combine [TInt I; TError] (sample_code 3 rvs)))
        /\ List.length rvs = List.length [TInt I; TInt I8]).
Proof.
  exact (Invoke_calls_at_most_once convert_integers sample_code
           [TInt I; TInt I8] [TInt I; TError] 3 [SInt 40; SInt 2] []).
Defined.

Lemma pack_nil_error_witness :
  List.length [(TInt I, GoInt I 1); (TString, GoOther OChan)] <> 1
  /\ pack ([(TInt I, GoInt I 1); (TString, GoOther OChan)] ++ [(TError, GoNil)])
     = Return (STuple []) None.
Proof.
  assert (H : List.length [(TInt I, GoInt I 1); (TString, GoOther OChan)] <> 1)
    by (simpl; discriminate).
  split; [exact H|].
  exact (pack_nil_error [(TInt I, GoInt I 1); (TString, GoOther OChan)] H).
Defined.

(** ** Sets from Go maps *)

Lemma MakeSet_loop_unhashable (pre post : list native) (k : native)
    (key : value) :
  Forall (fun k' => exists key', ToValue k' = Ok key'
                                 /\ starlark.Hashable key' = true) pre ->
  ToValue k = Ok key -> starlark.Hashable key = false ->
  forall set, MakeSet_loop (pre ++ k :: post) set = Err (Unhashable key).
Proof.
  intros Hpre Hk Hh. induction Hpre as [|k' pre (key' & Hk' & Hh') _ IH];
    intros set; simpl.
  - rewrite Hk. simpl. unfold starlark.Insert. now rewrite Hh.
  - rewrite Hk'. simpl. unfold starlark.Insert. rewrite Hh'. apply IH.
Qed.

(** X24.  [MakeSet] takes every key of the map, whatever its flag, and,
    unlike [MakeDict], returns the error of the set on the first key that
    encodes to an unhashable value. *)
Theorem MakeSet_unhashable_key (pre post : gomap) (k flag : native)
    (key : value)
    (Hpre : Forall (fun kv => exists key', ToValue (fst kv) = Ok key'
                                /\ starlark.Hashable key' = true) pre)
    (Hk : ToValue k = Ok key) (Hh : starlark.Hashable key = false) :
  MakeSet (pre ++ (k, flag) :: post) = Err (Unhashable key).
Proof.
  unfold MakeSet. rewrite map_app. simpl.
  rewrite (MakeSet_loop_unhashable (map fst pre) (map fst post) k key);
    [reflexivity | | exact Hk | exact Hh].
  induction Hpre as [|kv pre Hkv _ IH]; simpl; constructor; assumption.
Qed.

Lemma MakeSet_unhashable_key_witness :
  MakeSet ([(GoString "a", GoBool false)]
           ++ (GoArray TBool [GoBool true], GoBool true) :: [])
  = Err (Unhashable (SList [SBool true])).
Proof.
  apply (MakeSet_unhashable_key [(GoString "a", GoBool false)] []
           (GoArray TBool [GoBool true]) (GoBool true) (SList [SBool true])).
  - constructor; [|constructor]. exists (SString "a"). split; reflexivity.
  - reflexivity.
  - reflexivity.
Defined.

(** ** Errors beside results, pointers, and what a dictionary decodes to *)

(** X20.  A non-nil error in the declared error slot comes back from the
    builtin when exactly one result stands before it, together with the
    encoding of that result; with no result or several before it, and
    these encoding, the builtin returns [None] and a nil error. *)
Theorem pack_error_slot (e : native) (He : e <> GoNil) :
  (forall t x v, gotype_eqb t errType = false -> ToValue x = Ok v ->
     pack [(t, x); (TError, e)] = Return v (Some (NativeError e)))
  /\ (forall outs tup, List.length outs <> 1 ->
        MakeTuple (GoSlice TInterface (map snd outs)) = Ok tup ->
        pack (outs ++ [(TError, e)]) = Return SNone None).
Proof.
  split.
  - intros t x v Ht Hx. rewrite (pack_one_result t x e v Ht Hx).
    destruct e; congruence.
  - intros outs tup Hlen Htup. exact (pack_loses_error outs e tup Hlen He Htup).
Qed.

Lemma pack_error_slot_witness :
  GoError "boom" <> GoNil
  /\ pack [(TInt I, GoInt I 7); (TError, GoError "boom")]
     = Return (SInt 7) (Some (NativeError (GoError "boom")))
  /\ pack ([(TInt I, GoInt I 1); (TInt I, GoInt I 2)]
           ++ [(TError, GoError "boom")])
     = Return SNone None.
Proof.
  assert (H : GoError "boom" <> GoNil) by discriminate.
  split; [exact H|]. split.
  - exact (proj1 (pack_error_slot (GoError "boom") H)
             (TInt I) (GoInt I 7) (SInt 7) eq_refl eq_refl).
  - refine (proj2 (pack_error_slot (GoError "boom") H)
              [(TInt I, GoInt I 1); (TInt I, GoInt I 2)] [SInt 1; SInt 2]
              _ eq_refl).
    simpl. discriminate.
Defined.

(** X21.  Through a pointer to a variable of a concrete type, [ToValue]
    panics on a boolean, a number, a slice, an array, a map and a
    function, and on a string it returns, instead of the string, the text
    ["<*T Value>"] for the type [T] of the variable. *)
Theorem ToValue_pointer (t : gotype) (Ht : is_interface_type t = false) :
  (forall v,
     match v with
     | GoBool _ | GoInt _ _ | GoUint _ _ | GoFloat32 _ | GoFloat64 _
     | GoSlice _ _ | GoArray _ _ | GoMap _ _ _ | GoFunc _ _ _ => True
     | _ => False
     end ->
     ToValue (GoPtr t (Some v)) = Panicked)
  /\ (forall s,
        ToValue (GoPtr t (Some (GoString s)))
        = Ok (SString ("<*" ++ type_string t ++ " Value>"))).
Proof.
  split.
  - intros v Hv. simpl. rewrite Ht.
    destruct v; try contradiction; try reflexivity; destruct k; reflexivity.
  - intros s. simpl. rewrite Ht. reflexivity.
Qed.

Lemma ToValue_pointer_witness :
  is_interface_type (TSlice TBool) = false
  /\ ToValue (GoPtr (TSlice TBool) (Some (GoSlice TBool [GoBool true])))
     = Panicked.
Proof.
  split; [reflexivity|].
  exact (proj1 (ToValue_pointer (TSlice TBool) eq_refl)
           (GoSlice TBool [GoBool true]) Logic.I).
Defined.

Lemma map_replace_Forall (Q : native * native -> Prop) (m : gomap)
    (k v : native) :
  Forall Q m ->
  (forall k' v', Q (k', v') -> go_eqb k k' = true -> Q (k', v)) ->
  Q (k, v) ->
  Forall Q (map_replace m k v).
Proof.
  intros Hm Hrep Hnew. induction Hm as [|[k' v'] m' Hkv Hm' IH]; simpl.
  - constructor; [exact Hnew | constructor].
  - destruct (go_eqb k k') eqn:E.
    + constructor; [exact (Hrep k' v' Hkv E) | exact Hm'].
    + constructor; [exact Hkv | exact IH].
Qed.

Lemma decode_keys_entries (m entries : starlark.Dict) :
  incl entries m ->
  forall ret ret',
    Forall (fun kv =>
              (exists k, In k (starlark.Keys m) /\ FromValue k = Some (fst kv))
              /\ (exists k, In k (starlark.Keys m)
                            /\ snd kv = GoValue (fst (starlark.Get m k)))) ret ->
    decode_keys FromValue m entries ret = Some ret' ->
    Forall (fun kv =>
              (exists k, In k (starlark.Keys m) /\ FromValue k = Some (fst kv))
              /\ (exists k, In k (starlark.Keys m)
                            /\ snd kv = GoValue (fst (starlark.Get m k)))) ret'.
Proof.
  induction entries as [|[k x] entries IH]; simpl; intros Hincl ret ret' Hret.
  - now intros [= <-].
  - assert (Hk : In k (starlark.Keys m)).
    { unfold starlark.Keys. apply (in_map fst _ (k, x)). apply Hincl. now left. }
    destruct (FromValue k) as [key|] eqn:Ek; simpl; [|discriminate].
    unfold map_assign. destruct (go_hashable key); simpl; [|discriminate].
    apply IH; [intros kv Hkv; apply Hincl; now right|].
    apply map_replace_Forall.
    + exact Hret.
    + intros k' v' [Hkey _] _. simpl in *. split; [exact Hkey | eauto].
    + simpl. split; eauto.
Qed.

(** X23.  In the map [FromDict] returns, every key is the decoding of a
    key of the dictionary, and every value is a [starlark.Value] as
    [m.Get] gave it, not its decoding. *)
Theorem FromDict_entries (m : starlark.Dict) (ret : gomap)
    (H : FromDict m = Some ret) :
  Forall (fun kv =>
            (exists k, In k (starlark.Keys m) /\ FromValue k = Some (fst kv))
            /\ (exists k, In k (starlark.Keys m)
                          /\ snd kv = GoValue (fst (starlark.Get m k)))) ret.
Proof.
  exact (decode_keys_entries m m (incl_refl m) [] ret (Forall_nil _) H).
Qed.

Lemma FromDict_entries_witness :
  Forall (fun kv =>
            (exists k, In k (starlark.Keys [(SInt 1, SList [SInt 2])])
                       /\ FromValue k = Some (fst kv))
            /\ (exists k, In k (starlark.Keys [(SInt 1, SList [SInt 2])])
                          /\ snd kv = GoValue
                               (fst (starlark.Get [(SInt 1, SList [SInt 2])] k))))
    [(GoInt I64 1, GoValue (SList [SInt 2]))].
Proof.
  exact (FromDict_entries [(SInt 1, SList [SInt 2])]
           [(GoInt I64 1, GoValue (SList [SInt 2]))] eq_refl).
Defined.
